(** * The iCalendar text handler of [packages/web/src/ical.ts]

    A shallow embedding of the VEVENT block extractor, the record codec, the
    date-time conversion and the Event/record mapping, followed by the
    properties of the specification that were checked against it.

    Strings are sequences of 8-bit code units ([string] of the Standard
    Library); numbers are the integer-valued ECMAScript numbers together with
    [NaN].  Host facilities whose result depends on the engine or on its
    configuration (the local time zone, [String.prototype.toUpperCase], the
    textual form of a [Date]) are variables of the section. *)

From Stdlib Require Import String Ascii List ZArith Lia Bool.
Import ListNotations.
Open Scope string_scope.
Open Scope Z_scope.

(** ** ECMAScript strings *)

Module Str.

Definition LF : ascii := "010"%char.
Definition colon : ascii := ":"%char.

(** Truthiness of a string: only the empty string is falsy. *)
Definition truthy (s : string) : bool :=
  match s with EmptyString => false | String _ _ => true end.

(** [s.split(sep)] for a one-character separator. *)
Fixpoint split (sep : ascii) (s : string) : list string :=
  match s with
  | EmptyString => [EmptyString]
  | String c rest =>
      if Ascii.eqb c sep then EmptyString :: split sep rest
      else match split sep rest with
           | hd :: tl => String c hd :: tl
           | [] => [String c EmptyString]
           end
  end.

(** [parts.join(sep)] on an array of strings. *)
Definition join (sep : string) (parts : list string) : string :=
  String.concat sep parts.

(** [s.startsWith(p)]. *)
Fixpoint startsWith (s p : string) : bool :=
  match p with
  | EmptyString => true
  | String a p' =>
      match s with
      | EmptyString => false
      | String b s' => (Ascii.eqb a b && startsWith s' p')%bool
      end
  end.

(** White space and line terminators among the 8-bit code units:
    TAB, LF, VT, FF, CR, SP and NBSP. *)
Definition is_ws (c : ascii) : bool :=
  let n := N_of_ascii c in
  (N.eqb n 9 || N.eqb n 10 || N.eqb n 11 || N.eqb n 12 || N.eqb n 13
   || N.eqb n 32 || N.eqb n 160)%bool.

Fixpoint trimStart (s : string) : string :=
  match s with
  | EmptyString => EmptyString
  | String c rest => if is_ws c then trimStart rest else s
  end.

Fixpoint trimEnd (s : string) : string :=
  match s with
  | EmptyString => EmptyString
  | String c rest =>
      match trimEnd rest with
      | EmptyString => if is_ws c then EmptyString else String c EmptyString
      | kept => String c kept
      end
  end.

(** [s.trim()]. *)
Definition trim (s : string) : string := trimEnd (trimStart s).

(** [s.endsWith(p)]. *)
Definition endsWith (s p : string) : bool :=
  let n := String.length s in
  let m := String.length p in
  (Nat.leb m n && String.eqb (String.substring (n - m) m s) p)%bool.

(** [s.slice(a, b)] for [0 <= a <= b]. *)
Definition slice (a b : nat) (s : string) : string :=
  String.substring a (b - a) s.

Fixpoint repeat_to (n : nat) (fill cur : string) : string :=
  match n with
  | O => EmptyString
  | S n' =>
      match cur with
      | String c rest => String c (repeat_to n' fill rest)
      | EmptyString =>
          match fill with
          | String c rest => String c (repeat_to n' fill rest)
          | EmptyString => EmptyString
          end
      end
  end.

(** [s.padStart(target, fill)]. *)
Definition padStart (target : nat) (fill : string) (s : string) : string :=
  if Nat.leb target (String.length s) then s
  else repeat_to (target - String.length s) fill fill ++ s.

Definition contains (c : ascii) (s : string) : bool :=
  existsb (Ascii.eqb c) (list_ascii_of_string s).

End Str.

(** ** ECMAScript numbers (integer-valued, or NaN) *)

Inductive num : Type :=
| NaN
| Int (z : Z).

Module Num.

Definition digit (d : Z) : ascii := ascii_of_N (48 + Z.to_N d).

Fixpoint digits (fuel : nat) (n : Z) (acc : string) : string :=
  match fuel with
  | O => acc
  | S fuel' =>
      let acc' := String (digit (n mod 10)) acc in
      if n <? 10 then acc' else digits fuel' (n / 10) acc'
  end.

Definition decimal (n : Z) : string :=
  digits (S (Z.to_nat (Z.log2 n))) n EmptyString.

(** [n.toString()] (decimal notation; the exponent form of magnitudes from
    1e21 on is outside the model). *)
Definition toString (n : num) : string :=
  match n with
  | NaN => "NaN"
  | Int z => if z <? 0 then String "-"%char (decimal (- z)) else decimal z
  end.

Definition add (a b : num) : num :=
  match a, b with
  | Int x, Int y => Int (x + y)
  | _, _ => NaN
  end.

Definition sub (a b : num) : num :=
  match a, b with
  | Int x, Int y => Int (x - y)
  | _, _ => NaN
  end.

Definition truthy (n : num) : bool :=
  match n with
  | NaN => false
  | Int z => negb (z =? 0)
  end.

Definition digit_val (c : ascii) : option Z :=
  let n := Z.of_N (N_of_ascii c) in
  if (48 <=? n) && (n <=? 57) then Some (n - 48) else None.

Fixpoint read_digits (s : string) (acc : option Z) : option Z :=
  match s with
  | EmptyString => acc
  | String c rest =>
      match digit_val c with
      | Some d =>
          read_digits rest
            (Some (match acc with Some a => 10 * a + d | None => d end))
      | None => acc
      end
  end.

(** [Number.parseInt(s, 10)]: leading white space is skipped, a sign is
    accepted, the longest run of decimal digits is read; [NaN] when there
    is none. *)
Definition parseInt (s : string) : num :=
  match Str.trimStart s with
  | String "-"%char rest =>
      match read_digits rest None with Some v => Int (- v) | None => NaN end
  | String "+"%char rest =>
      match read_digits rest None with Some v => Int v | None => NaN end
  | t => match read_digits t None with Some v => Int v | None => NaN end
  end.

End Num.

(** ** The ECMAScript [Date] object

    A [Date] holds a time value: a number of milliseconds since the epoch,
    or [NaN] for an invalid date.  The day and calendar arithmetic is that of
    the language definition (section "Time Values and Time Range"). *)

Inductive Date : Type :=
| mkDate (time_value : num).

Module Time.

Definition msPerSecond : Z := 1000.
Definition msPerMinute : Z := 60000.
Definition msPerHour : Z := 3600000.
Definition msPerDay : Z := 86400000.

Definition Day (t : Z) : Z := t / msPerDay.
Definition TimeWithinDay (t : Z) : Z := t mod msPerDay.

Definition DayFromYear (y : Z) : Z :=
  365 * (y - 1970) + (y - 1969) / 4 - (y - 1901) / 100 + (y - 1601) / 400.

Definition DaysInYear (y : Z) : Z :=
  if (y mod 4 =? 0) && (negb (y mod 100 =? 0) || (y mod 400 =? 0))
  then 366 else 365.

(** The year of a day number: the largest [y] with [DayFromYear y <= d],
    found from the mean year length and one correction step. *)
Definition YearFromDay (d : Z) : Z :=
  let y0 := 1970 + (d * 400) / 146097 in
  if d <? DayFromYear y0 then y0 - 1
  else if DayFromYear (y0 + 1) <=? d then y0 + 1
  else y0.

Definition YearFromTime (t : Z) : Z := YearFromDay (Day t).

Definition DayWithinYear (t : Z) : Z :=
  Day t - DayFromYear (YearFromTime t).

Definition InLeapYear (t : Z) : Z :=
  if DaysInYear (YearFromTime t) =? 366 then 1 else 0.

Definition MonthFromTime (t : Z) : Z :=
  let d := DayWithinYear t in
  let leap := InLeapYear t in
  if d <? 31 then 0
  else if d <? 59 + leap then 1
  else if d <? 90 + leap then 2
  else if d <? 120 + leap then 3
  else if d <? 151 + leap then 4
  else if d <? 181 + leap then 5
  else if d <? 212 + leap then 6
  else if d <? 243 + leap then 7
  else if d <? 273 + leap then 8
  else if d <? 304 + leap then 9
  else if d <? 334 + leap then 10
  else 11.

Definition DateFromTime (t : Z) : Z :=
  let d := DayWithinYear t in
  let leap := InLeapYear t in
  match MonthFromTime t with
  | 0 => d + 1
  | 1 => d - 30
  | 2 => d - 58 - leap
  | 3 => d - 89 - leap
  | 4 => d - 119 - leap
  | 5 => d - 150 - leap
  | 6 => d - 180 - leap
  | 7 => d - 211 - leap
  | 8 => d - 242 - leap
  | 9 => d - 272 - leap
  | 10 => d - 303 - leap
  | _ => d - 333 - leap
  end.

Definition HourFromTime (t : Z) : Z := (t / msPerHour) mod 24.
Definition MinFromTime (t : Z) : Z := (t / msPerMinute) mod 60.
Definition SecFromTime (t : Z) : Z := (t / msPerSecond) mod 60.
Definition msFromTime (t : Z) : Z := t mod msPerSecond.

Definition MakeTime (hour min sec ms : Z) : Z :=
  hour * msPerHour + min * msPerMinute + sec * msPerSecond + ms.

(** Days from the first of January to the first of month [mn] (0..11). *)
Definition DaysBeforeMonth (leap mn : Z) : Z :=
  match mn with
  | 0 => 0
  | 1 => 31
  | 2 => 59 + leap
  | 3 => 90 + leap
  | 4 => 120 + leap
  | 5 => 151 + leap
  | 6 => 181 + leap
  | 7 => 212 + leap
  | 8 => 243 + leap
  | 9 => 273 + leap
  | 10 => 304 + leap
  | _ => 334 + leap
  end.

Definition MakeDay (year month date : Z) : Z :=
  let ym := year + month / 12 in
  let mn := month mod 12 in
  let leap := if DaysInYear ym =? 366 then 1 else 0 in
  DayFromYear ym + DaysBeforeMonth leap mn + date - 1.

Definition MakeDate (day time : Z) : Z := day * msPerDay + time.

Definition TimeClip (t : Z) : num :=
  if 8640000000000000 <? Z.abs t then NaN else Int t.

(** The date part shared by [Date.UTC] and the [Date] constructor: years
    0 to 99 stand for 1900 to 1999, and any [NaN] argument gives [NaN]. *)
Definition date_of_fields (year month date hours minutes seconds : num)
  : option Z :=
  match year, month, date, hours, minutes, seconds with
  | Int y, Int m, Int dt, Int h, Int mi, Int s =>
      let yr := if (0 <=? y) && (y <=? 99) then 1900 + y else y in
      Some (MakeDate (MakeDay yr m dt) (MakeTime h mi s 0))
  | _, _, _, _, _, _ => None
  end.

(** [Date.UTC(year, month, date, hours, minutes, seconds)]. *)
Definition UTC_of_fields (year month date hours minutes seconds : num)
  : num :=
  match date_of_fields year month date hours minutes seconds with
  | Some t => TimeClip t
  | None => NaN
  end.

End Time.

(** ** Values and objects

    The values a record or an Event can hold ([unknown] in the source).  An
    object is the ordered list of its own enumerable properties, in the order
    [Object.entries] and [for ... in] visit them: array-index keys first, in
    ascending order, then the other keys in order of creation. *)

Inductive value : Type :=
| VUndefined
| VNull
| VBool (b : bool)
| VNum (n : num)
| VStr (s : string)
| VDate (d : Date).

Definition obj : Type := list (string * value).

Module Val.

(** Truthiness ([if (v)]). *)
Definition truthy (v : value) : bool :=
  match v with
  | VUndefined | VNull => false
  | VBool b => b
  | VNum n => Num.truthy n
  | VStr s => Str.truthy s
  | VDate _ => true
  end.

(** [typeof v === "string"]. *)
Definition is_string (v : value) : bool :=
  match v with VStr _ => true | _ => false end.

(** [v !== undefined]. *)
Definition is_defined (v : value) : bool :=
  match v with VUndefined => false | _ => true end.

End Val.

Module Obj.

Definition all_digits (s : string) : bool :=
  forallb (fun c => match Num.digit_val c with
                    | Some _ => true
                    | None => false
                    end)
          (list_ascii_of_string s).

(** The array index a property key denotes, if any: the canonical decimal
    form of an integer between 0 and 2^32 - 2. *)
Definition array_index (k : string) : option Z :=
  match k with
  | EmptyString => None
  | String c rest =>
      if all_digits k && Nat.leb (String.length k) 10
         && (negb (Ascii.eqb c "0"%char) || String.eqb rest EmptyString)
      then match Num.read_digits k None with
           | Some i => if i <=? 4294967294 then Some i else None
           | None => None
           end
      else None
  end.

Fixpoint has_own (k : string) (o : obj) : bool :=
  match o with
  | [] => false
  | (k', _) :: rest => (String.eqb k k' || has_own k rest)%bool
  end.

(** [o[k]] on own properties; [undefined] when there is none. *)
Fixpoint get (k : string) (o : obj) : value :=
  match o with
  | [] => VUndefined
  | (k', v) :: rest => if String.eqb k k' then v else get k rest
  end.

Fixpoint replace (k : string) (v : value) (o : obj) : obj :=
  match o with
  | [] => []
  | (k', v') :: rest =>
      if String.eqb k k' then (k', v) :: rest
      else (k', v') :: replace k v rest
  end.

Fixpoint insert_index (i : Z) (k : string) (v : value) (o : obj) : obj :=
  match o with
  | [] => [(k, v)]
  | (k', v') :: rest =>
      match array_index k' with
      | Some j =>
          if j <? i then (k', v') :: insert_index i k v rest
          else (k, v) :: o
      | None => (k, v) :: o
      end
  end.

(** [o[k] = v] on an ordinary object.  Assigning to ["__proto__"] reaches
    the accessor of [Object.prototype] and creates no own property. *)
Definition set (k : string) (v : value) (o : obj) : obj :=
  if String.eqb k "__proto__" then o
  else if has_own k o then replace k v o
  else match array_index k with
       | Some i => insert_index i k v o
       | None => (o ++ [(k, v)])%list
       end.

Definition keys (o : obj) : list string := map fst o.

End Obj.

(** Completion of a call: a returned value or a thrown exception. *)
Inductive exn : Type :=
| Error (message : string)
| TypeError.

Inductive completion (A : Type) : Type :=
| Return (a : A)
| Throw (e : exn).
Arguments Return {A} a.
Arguments Throw {A} e.

Definition NL : string := String Str.LF EmptyString.

(** [[...].includes(key)]. *)
Definition includes (names : list string) (key : string) : bool :=
  existsb (String.eqb key) names.

(** ** The functions of [ical.ts] *)

Section Ical.

(** Host facilities: the offset of local time ([LocalTZA(t, isUTC)] of the
    language definition), [String.prototype.toUpperCase], and the text
    [String(date)] produces for a [Date]. *)
Variable LocalTZA : Z -> bool -> Z.
Variable toUpperCase : string -> string.
Variable Date_toString : Date -> string.

(** *** Block extractor *)

(** The block held by [currentLine] when the test [if (currentLine)]
    passes: neither [null] nor the empty string. *)
Definition open_block (currentLine : option string) : option string :=
  match currentLine with
  | Some cur => if Str.truthy cur then Some cur else None
  | None => None
  end.

Definition icalToWebDav_step (st : list string * option string)
  (line : string) : list string * option string :=
  let '(webDavLines, currentLine) := st in
  if Str.startsWith line "BEGIN:VEVENT" then
    (match open_block currentLine with
     | Some cur => (webDavLines ++ [cur])%list
     | None => webDavLines
     end, Some line)
  else if Str.startsWith line "END:VEVENT" then
    match open_block currentLine with
    | Some cur => ((webDavLines ++ [cur])%list, None)
    | None => (webDavLines, currentLine)
    end
  else
    match open_block currentLine with
    | Some cur => (webDavLines, Some (cur ++ NL ++ line))
    | None => (webDavLines, currentLine)
    end.

Definition icalToWebDav_blocks (lines : list string) : list string :=
  let '(webDavLines, currentLine) :=
    fold_left icalToWebDav_step lines ([], None) in
  match open_block currentLine with
  | Some cur => (webDavLines ++ [cur])%list
  | None => webDavLines
  end.

Definition icalToWebDav (icalData baseUrl : string) : string :=
  let lines := Str.split Str.LF icalData in
  Str.join NL (icalToWebDav_blocks lines).

Definition webDavToIcal_step (st : list string * option string)
  (line : string) : list string * option string :=
  let '(icalLines, currentLine) := st in
  if Str.startsWith line "BEGIN:VEVENT" then
    (match open_block currentLine with
     | Some cur => (icalLines ++ [cur])%list
     | None => icalLines
     end, Some line)
  else if Str.startsWith line "END:VEVENT" then
    match open_block currentLine with
    | Some cur => ((icalLines ++ [cur])%list, None)
    | None => (icalLines, currentLine)
    end
  else
    match open_block currentLine with
    | Some cur => (icalLines, Some (cur ++ NL ++ line))
    | None => (icalLines, currentLine)
    end.

Definition webDavToIcal (webDavData : string) : string :=
  let lines := Str.split Str.LF webDavData in
  let '(icalLines, currentLine) :=
    fold_left webDavToIcal_step lines ([], None) in
  Str.join NL
    match open_block currentLine with
    | Some cur => (icalLines ++ [cur])%list
    | None => icalLines
    end.

(** *** Record codec *)

(** The body of the last branch of the loop of [parseIcal]: one property
    line read into the open record. *)
Definition parseIcal_property (line : string) (currentEvent : obj) : obj :=
  match Str.split Str.colon line with
  | key :: valueParts =>
      let value := Str.trim (Str.join ":" valueParts) in
      if Str.truthy key && Str.truthy value
      then Obj.set (Str.trim key) (VStr value) currentEvent
      else currentEvent
  | [] => currentEvent
  end.

Definition parseIcal_step (st : list obj * option obj) (line : string)
  : list obj * option obj :=
  let '(events, currentEvent) := st in
  if Str.startsWith line "BEGIN:VEVENT" then (events, Some [])
  else if Str.startsWith line "END:VEVENT" then
    match currentEvent with
    | Some ev => ((events ++ [ev])%list, None)
    | None => (events, currentEvent)
    end
  else
    match currentEvent with
    | Some ev => (events, Some (parseIcal_property line ev))
    | None => (events, currentEvent)
    end.

Definition parseIcal_lines (lines : list string) : list obj :=
  fst (fold_left parseIcal_step lines ([], None)).

Definition parseIcal (icalData : string) : list obj :=
  parseIcal_lines (Str.split Str.LF icalData).

(** The text of a value inside a template literal. *)
Definition ToString (v : value) : string :=
  match v with
  | VUndefined => "undefined"
  | VNull => "null"
  | VBool b => if b then "true" else "false"
  | VNum n => Num.toString n
  | VStr s => s
  | VDate d => Date_toString d
  end.

Definition icalToString_properties (event : obj) : list string :=
  flat_map (fun '(key, value) =>
              if Str.truthy key && Val.truthy value
              then [key ++ ":" ++ ToString value]
              else [])
           event.

Definition icalToString_lines (icalData : list obj) : list string :=
  flat_map (fun event =>
              "BEGIN:VEVENT" :: icalToString_properties event
                ++ ["END:VEVENT"])%list
           icalData.

Definition icalToString (icalData : list obj) : string :=
  Str.join NL (icalToString_lines icalData).

Definition parseWebDav_step (st : list obj * option obj) (line : string)
  : list obj * option obj :=
  let '(events, currentEvent) := st in
  if Str.startsWith line "BEGIN:VEVENT" then (events, Some [])
  else if Str.startsWith line "END:VEVENT" then
    match currentEvent with
    | Some ev => ((events ++ [ev])%list, None)
    | None => (events, currentEvent)
    end
  else
    match currentEvent with
    | Some ev =>
        (events,
         Some match Str.split Str.colon line with
              | key :: valueParts =>
                  let value := Str.trim (Str.join ":" valueParts) in
                  if Str.truthy key && Str.truthy value
                  then Obj.set (Str.trim key) (VStr value) ev
                  else ev
              | [] => ev
              end)
    | None => (events, currentEvent)
    end.

Definition parseWebDav (webDavData : string) : list obj :=
  fst (fold_left parseWebDav_step (Str.split Str.LF webDavData) ([], None)).

Definition webDavToString (webDavData : list obj) : string :=
  Str.join NL
    (flat_map (fun event =>
                 "BEGIN:VEVENT"
                   :: flat_map (fun '(key, value) =>
                                  if Str.truthy key && Val.truthy value
                                  then [(key ++ ":" ++ ToString value)%string]
                                  else [])
                               event
                   ++ ["END:VEVENT"])%list
              webDavData).

(** *** Date-time conversion *)

Definition getUTCFullYear (date : Date) : num :=
  match date with
  | mkDate (Int t) => Int (Time.YearFromTime t)
  | mkDate NaN => NaN
  end.
Definition getUTCMonth (date : Date) : num :=
  match date with
  | mkDate (Int t) => Int (Time.MonthFromTime t)
  | mkDate NaN => NaN
  end.
Definition getUTCDate (date : Date) : num :=
  match date with
  | mkDate (Int t) => Int (Time.DateFromTime t)
  | mkDate NaN => NaN
  end.
Definition getUTCHours (date : Date) : num :=
  match date with
  | mkDate (Int t) => Int (Time.HourFromTime t)
  | mkDate NaN => NaN
  end.
Definition getUTCMinutes (date : Date) : num :=
  match date with
  | mkDate (Int t) => Int (Time.MinFromTime t)
  | mkDate NaN => NaN
  end.
Definition getUTCSeconds (date : Date) : num :=
  match date with
  | mkDate (Int t) => Int (Time.SecFromTime t)
  | mkDate NaN => NaN
  end.

(** [LocalTime(t)]: the time value shifted to local time. *)
Definition LocalTime (t : Z) : Z := t + LocalTZA t true.

Definition getFullYear (date : Date) : num :=
  match date with
  | mkDate (Int t) => Int (Time.YearFromTime (LocalTime t))
  | mkDate NaN => NaN
  end.
Definition getMonth (date : Date) : num :=
  match date with
  | mkDate (Int t) => Int (Time.MonthFromTime (LocalTime t))
  | mkDate NaN => NaN
  end.
Definition getDate (date : Date) : num :=
  match date with
  | mkDate (Int t) => Int (Time.DateFromTime (LocalTime t))
  | mkDate NaN => NaN
  end.
Definition getHours (date : Date) : num :=
  match date with
  | mkDate (Int t) => Int (Time.HourFromTime (LocalTime t))
  | mkDate NaN => NaN
  end.
Definition getMinutes (date : Date) : num :=
  match date with
  | mkDate (Int t) => Int (Time.MinFromTime (LocalTime t))
  | mkDate NaN => NaN
  end.
Definition getSeconds (date : Date) : num :=
  match date with
  | mkDate (Int t) => Int (Time.SecFromTime (LocalTime t))
  | mkDate NaN => NaN
  end.

(** [new Date(Date.UTC(year, month, day, hours, minutes, seconds))]. *)
Definition Date_UTC (year month day hours minutes seconds : num) : Date :=
  mkDate (Time.UTC_of_fields year month day hours minutes seconds).

(** [new Date(year, month, day, hours, minutes, seconds)]: the fields are
    read as local time. *)
Definition Date_local (year month day hours minutes seconds : num) : Date :=
  mkDate
    match Time.date_of_fields year month day hours minutes seconds with
    | Some t => Time.TimeClip (t - LocalTZA t false)
    | None => NaN
    end.

Definition parseIcalDateTime (dateTimeStr : option string) : option Date :=
  match dateTimeStr with
  | None => None
  | Some s =>
      if negb (Str.truthy s) then None
      else
        let year := Num.parseInt (Str.slice 0 4 s) in
        let month := Num.sub (Num.parseInt (Str.slice 4 6 s)) (Int 1) in
        let day := Num.parseInt (Str.slice 6 8 s) in
        let '(hours, minutes, seconds) :=
          if Nat.ltb 8 (String.length s)
             && match String.get 8 s with
                | Some c => Ascii.eqb c "T"%char
                | None => false
                end
          then (Num.parseInt (Str.slice 9 11 s),
                Num.parseInt (Str.slice 11 13 s),
                Num.parseInt (Str.slice 13 15 s))
          else (Int 0, Int 0, Int 0) in
        if Str.endsWith s "Z"
        then Some (Date_UTC year month day hours minutes seconds)
        else Some (Date_local year month day hours minutes seconds)
  end.

Definition formatToIcalDateTime (date : Date) (timezone : bool) : string :=
  if timezone then
    (Num.toString (getFullYear date)
     ++ Str.padStart 2 "0" (Num.toString (Num.add (getMonth date) (Int 1)))
     ++ Str.padStart 2 "0" (Num.toString (getDate date)))
    ++ "T" ++ Str.padStart 2 "0" (Num.toString (getHours date))
    ++ Str.padStart 2 "0" (Num.toString (getMinutes date))
    ++ Str.padStart 2 "0" (Num.toString (getSeconds date))
  else
    (Num.toString (getUTCFullYear date)
     ++ Str.padStart 2 "0" (Num.toString (Num.add (getUTCMonth date) (Int 1)))
     ++ Str.padStart 2 "0" (Num.toString (getUTCDate date)))
    ++ "T" ++ Str.padStart 2 "0" (Num.toString (getUTCHours date))
    ++ Str.padStart 2 "0" (Num.toString (getUTCMinutes date))
    ++ Str.padStart 2 "0" (Num.toString (getUTCSeconds date))
    ++ "Z".

(** *** Event and record mapping *)

Definition date_value (d : option Date) : value :=
  match d with
  | Some d => VDate d
  | None => VUndefined
  end.

Definition as_string (v : value) : option string :=
  match v with
  | VStr s => Some s
  | _ => None
  end.

Definition record_names : list string :=
  ["UID"; "SUMMARY"; "DTSTART"; "DTEND"; "LOCATION"; "DESCRIPTION"].

Definition event_names : list string :=
  ["id"; "summary"; "start"; "end"; "location"; "description"].

(** The guard of [mapIcalObjectToEvent]. *)
Definition invalid_ical_object (icalObj : obj) : bool :=
  negb (Val.is_string (Obj.get "UID" icalObj))
  || negb (Val.is_string (Obj.get "SUMMARY" icalObj))
  || negb (Val.is_string (Obj.get "DTSTART" icalObj))
  || negb (Val.is_string (Obj.get "DTEND" icalObj))
  || (Val.is_defined (Obj.get "LOCATION" icalObj)
      && negb (Val.is_string (Obj.get "LOCATION" icalObj)))
  || (Val.is_defined (Obj.get "DESCRIPTION" icalObj)
      && negb (Val.is_string (Obj.get "DESCRIPTION" icalObj))).

Definition mapIcalObjectToEvent (icalObj : obj) : completion obj :=
  let event : obj := [] in
  if invalid_ical_object icalObj then Throw (Error "Invalid iCal object")
  else
    let event := Obj.set "id" (Obj.get "UID" icalObj) event in
    let event := Obj.set "summary" (Obj.get "SUMMARY" icalObj) event in
    let event :=
      Obj.set "start"
        (date_value (parseIcalDateTime (as_string (Obj.get "DTSTART" icalObj))))
        event in
    let event :=
      Obj.set "end"
        (date_value (parseIcalDateTime (as_string (Obj.get "DTEND" icalObj))))
        event in
    let event :=
      if Val.truthy (Obj.get "LOCATION" icalObj)
      then Obj.set "location" (Obj.get "LOCATION" icalObj) event
      else event in
    let event :=
      if Val.truthy (Obj.get "DESCRIPTION" icalObj)
      then Obj.set "description" (Obj.get "DESCRIPTION" icalObj) event
      else event in
    Return
      (fold_left
         (fun event key =>
            if negb (includes record_names key)
            then Obj.set key (Obj.get key icalObj) event
            else event)
         (Obj.keys icalObj) event).

(** [formatToIcalDateTime(v)] on an arbitrary value: the method calls on
    anything but a [Date] raise a [TypeError]. *)
Definition formatToIcalDateTime_of (v : value) : completion string :=
  match v with
  | VDate d => Return (formatToIcalDateTime d false)
  | _ => Throw TypeError
  end.

Definition mapEventToIcalObject (event : obj) : completion obj :=
  let icalObj : obj := [] in
  let icalObj :=
    if Val.truthy (Obj.get "id" event)
    then Obj.set "UID" (Obj.get "id" event) icalObj
    else icalObj in
  let icalObj := Obj.set "SUMMARY" (Obj.get "summary" event) icalObj in
  match formatToIcalDateTime_of (Obj.get "start" event) with
  | Throw e => Throw e
  | Return dtstart =>
      let icalObj := Obj.set "DTSTART" (VStr dtstart) icalObj in
      match formatToIcalDateTime_of (Obj.get "end" event) with
      | Throw e => Throw e
      | Return dtend =>
          let icalObj := Obj.set "DTEND" (VStr dtend) icalObj in
          let icalObj :=
            if Val.truthy (Obj.get "location" event)
            then Obj.set "LOCATION" (Obj.get "location" event) icalObj
            else icalObj in
          let icalObj :=
            if Val.truthy (Obj.get "description" event)
            then Obj.set "DESCRIPTION" (Obj.get "description" event) icalObj
            else icalObj in
          Return
            (fold_left
               (fun icalObj key =>
                  if negb (includes event_names key)
                  then Obj.set (toUpperCase key) (Obj.get key event) icalObj
                  else icalObj)
               (Obj.keys event) icalObj)
      end
  end.

End Ical.

(** ** Concrete hosts and sample data *)

(** A host in the UTC zone. *)
Definition utc_zone : Z -> bool -> Z := fun _ _ => 0.

(** [toUpperCase] on ASCII text. *)
Definition upper_char (c : ascii) : ascii :=
  let n := N_of_ascii c in
  if (N.leb 97 n && N.leb n 122)%bool then ascii_of_N (n - 32) else c.

Fixpoint upper_ascii (s : string) : string :=
  match s with
  | EmptyString => EmptyString
  | String c rest => String (upper_char c) (upper_ascii rest)
  end.

(** A stand-in for the text of a [Date]; no claim depends on it. *)
Definition date_text : Date -> string := fun _ => "Invalid Date".

(** ** Conditions under which a record survives the codec *)

(** A key that [parseIcal] reads back as written. *)
Definition plain_key (key : string) : bool :=
  Str.truthy key
  && negb (Str.contains Str.colon key)
  && negb (Str.contains Str.LF key)
  && String.eqb (Str.trim key) key
  && negb (String.eqb key "__proto__").

(** A value that [parseIcal] reads back as written. *)
Definition plain_value (v : string) : bool :=
  Str.truthy v && negb (Str.contains Str.LF v) && String.eqb (Str.trim v) v.

(** The property line is not taken for a block marker. *)
Definition not_marker (key v : string) : bool :=
  negb (Str.startsWith (key ++ ":" ++ v) "BEGIN:VEVENT")
  && negb (Str.startsWith (key ++ ":" ++ v) "END:VEVENT").

Definition plain_property (p : string * value) : bool :=
  match p with
  | (key, VStr v) => plain_key key && plain_value v && not_marker key v
  | _ => false
  end.

(** [k1] may stand before [k2] among the own properties of an object. *)
Definition precedes (k1 k2 : string) : bool :=
  match Obj.array_index k1, Obj.array_index k2 with
  | Some i, Some j => i <? j
  | Some _, None => true
  | None, Some _ => false
  | None, None => negb (String.eqb k1 k2)
  end.

(** The property list of an actual object: no key twice, array indices
    first and ascending. *)
Fixpoint well_formed (o : obj) : bool :=
  match o with
  | [] => true
  | (k, _) :: rest =>
      forallb (fun p => precedes k (fst p)) rest && well_formed rest
  end.

Definition plain_record (r : obj) : bool :=
  well_formed r && forallb plain_property r.

(** A line that opens a block, and one that closes it. *)
Definition is_begin (line : string) : bool :=
  Str.startsWith line "BEGIN:VEVENT".
Definition is_end (line : string) : bool :=
  Str.startsWith line "END:VEVENT".

(** The state of the loop of [parseIcal] after the given lines. *)
Definition parseIcal_state (lines : list string) : list obj * option obj :=
  fold_left parseIcal_step lines ([], None).

(** ** The Event round trip *)

(** An Event mapped to a record and back. *)
Definition event_roundtrip (LocalTZA : Z -> bool -> Z)
  (toUpperCase : string -> string) (event : obj) : completion obj :=
  match mapEventToIcalObject LocalTZA toUpperCase event with
  | Return icalObj => mapIcalObjectToEvent LocalTZA icalObj
  | Throw e => Throw e
  end.

Definition optional_string (v : value) : bool :=
  match v with
  | VUndefined | VStr _ => true
  | _ => false
  end.

Definition is_Date (v : value) : bool :=
  match v with VDate _ => true | _ => false end.

(** The interface [Event] of [types.ts]. *)
Definition is_Event (event : obj) : bool :=
  optional_string (Obj.get "id" event)
  && Val.is_string (Obj.get "summary" event)
  && is_Date (Obj.get "start" event)
  && is_Date (Obj.get "end" event)
  && optional_string (Obj.get "location" event)
  && optional_string (Obj.get "description" event).

(** The fields of an Event beyond the six named ones. *)
Definition is_custom (key : string) : bool := negb (includes event_names key).

Definition custom_keys (event : obj) : list string :=
  filter is_custom (Obj.keys event).

(** A valid date with whole seconds and a UTC year of four digits. *)
Definition four_digit_year_whole_second (v : value) : bool :=
  match v with
  | VDate (mkDate (Int t)) =>
      (Time.msFromTime t =? 0)
      && (1000 <=? Time.YearFromTime t) && (Time.YearFromTime t <=? 9999)
  | _ => false
  end.

Fixpoint distinct (names : list string) : bool :=
  match names with
  | [] => true
  | x :: rest => negb (includes rest x) && distinct rest
  end.

Definition reserved_names : list string :=
  (record_names ++ event_names ++ ["__proto__"])%list.

(** The Events that the round trip gives back. *)
Definition portable_event (toUpperCase : string -> string) (event : obj)
  : bool :=
  is_Event event
  && Val.truthy (Obj.get "id" event)
  && four_digit_year_whole_second (Obj.get "start" event)
  && four_digit_year_whole_second (Obj.get "end" event)
  && forallb (fun key => negb (includes reserved_names (toUpperCase key)))
       (custom_keys event)
  && distinct (map toUpperCase (custom_keys event)).

(** ** Auxiliary definitions *)

(** The loops of the two mapping functions: the selected keys of an object
    are copied, renamed by [target], into another one. *)
Definition copy_step (selected : string -> bool) (target : string -> string)
  (source : string -> value) (o : obj) (key : string) : obj :=
  if selected key then Obj.set (target key) (source key) o else o.

(** The record [mapEventToIcalObject] has built when its loop starts. *)
Definition named_properties (event : obj) (dtstart dtend : string) : obj :=
  let icalObj : obj := [] in
  let icalObj :=
    if Val.truthy (Obj.get "id" event)
    then Obj.set "UID" (Obj.get "id" event) icalObj
    else icalObj in
  let icalObj := Obj.set "SUMMARY" (Obj.get "summary" event) icalObj in
  let icalObj := Obj.set "DTSTART" (VStr dtstart) icalObj in
  let icalObj := Obj.set "DTEND" (VStr dtend) icalObj in
  let icalObj :=
    if Val.truthy (Obj.get "location" event)
    then Obj.set "LOCATION" (Obj.get "location" event) icalObj
    else icalObj in
  if Val.truthy (Obj.get "description" event)
  then Obj.set "DESCRIPTION" (Obj.get "description" event) icalObj
  else icalObj.

(** The Event [mapIcalObjectToEvent] has built when its loop starts. *)
Definition named_fields (LocalTZA : Z -> bool -> Z) (icalObj : obj) : obj :=
  let event : obj := [] in
  let event := Obj.set "id" (Obj.get "UID" icalObj) event in
  let event := Obj.set "summary" (Obj.get "SUMMARY" icalObj) event in
  let event :=
    Obj.set "start"
      (date_value
         (parseIcalDateTime LocalTZA (as_string (Obj.get "DTSTART" icalObj))))
      event in
  let event :=
    Obj.set "end"
      (date_value
         (parseIcalDateTime LocalTZA (as_string (Obj.get "DTEND" icalObj))))
      event in
  let event :=
    if Val.truthy (Obj.get "LOCATION" icalObj)
    then Obj.set "location" (Obj.get "LOCATION" icalObj) event
    else event in
  if Val.truthy (Obj.get "DESCRIPTION" icalObj)
  then Obj.set "description" (Obj.get "DESCRIPTION" icalObj) event
  else event.

(** The record [mapEventToIcalObject] returns for an Event whose dates are
    rendered as [dtstart] and [dtend]. *)
Definition record_of (toUpperCase : string -> string) (event : obj)
  (dtstart dtend : string) : obj :=
  fold_left
    (copy_step (fun key => negb (includes event_names key)) toUpperCase
       (fun key => Obj.get key event))
    (Obj.keys event) (named_properties event dtstart dtend).

(** The Event [mapIcalObjectToEvent] returns for a valid record. *)
Definition event_of (LocalTZA : Z -> bool -> Z) (icalObj : obj) : obj :=
  fold_left
    (copy_step (fun key => negb (includes record_names key)) (fun key => key)
       (fun key => Obj.get key icalObj))
    (Obj.keys icalObj) (named_fields LocalTZA icalObj).

(** The conditions under which the specification calls a record invalid; a
    property that holds [undefined] counts as absent. *)
Definition missing_or_not_string (k : string) (r : obj) : Prop :=
  Obj.has_own k r = false \/ Val.is_string (Obj.get k r) = false.

Definition present_but_not_string (k : string) (r : obj) : Prop :=
  Val.is_defined (Obj.get k r) = true /\ Val.is_string (Obj.get k r) = false.

Definition InvalidRecord (r : obj) : Prop :=
  missing_or_not_string "UID" r \/ missing_or_not_string "SUMMARY" r
  \/ missing_or_not_string "DTSTART" r \/ missing_or_not_string "DTEND" r
  \/ present_but_not_string "LOCATION" r
  \/ present_but_not_string "DESCRIPTION" r.

(** A text of the given width that [parseInt] reads as [n]. *)
Definition reads_back (width : nat) (text : string) (n : Z) : bool :=
  Nat.eqb (String.length text) width
  && match Num.parseInt text with
     | Int m => m =? n
     | NaN => false
     end.

(** ** Sample data (from the test suite of the repository) *)

Definition baseUrl_sample : string := "http://example.com/caldav/".

Definition incomplete_text : string :=
  Str.join NL ["BEGIN:VEVENT"; "SUMMARY:Incomplete"].

Definition nested_text : string :=
  Str.join NL
    ["BEGIN:VEVENT"; "SUMMARY:Outer Event"; "BEGIN:VEVENT";
     "SUMMARY:Inner Event"; "END:VEVENT"].

Definition closed_then_open_text : string :=
  Str.join NL
    ["BEGIN:VEVENT"; "SUMMARY:Event 1"; "END:VEVENT";
     "BEGIN:VEVENT"; "SUMMARY:Incomplete"].

Definition blank_key_text : string :=
  Str.join NL ["BEGIN:VEVENT"; " :VALUEONLY"; "END:VEVENT"].

Definition singleEventObject : obj :=
  [("SUMMARY", VStr "Test Event");
   ("DTSTART", VStr "20230101T100000Z");
   ("DTEND", VStr "20230101T110000Z");
   ("UID", VStr "event1@example.com");
   ("DESCRIPTION",
    VStr "This is a test event with a colon: in the description.")].

Definition multipleEventsObjects : list obj :=
  [[("SUMMARY", VStr "Event 1"); ("UID", VStr "event1@example.com")];
   [("SUMMARY", VStr "Event 2"); ("UID", VStr "event2@example.com")]].

(** A record whose value ends with a space. *)
Definition padded_value_records : list obj :=
  [[("SUMMARY", VStr "Team sync ")]].

(** [singleEventObject] with one more property, named [id]. *)
Definition record_with_id : obj :=
  [("SUMMARY", VStr "Test Event");
   ("DTSTART", VStr "20230101T100000Z");
   ("DTEND", VStr "20230101T110000Z");
   ("UID", VStr "event1@example.com");
   ("id", VStr "other")].

(** 2023-01-01T10:00:00Z, 2023-01-01T11:00:00Z and 0999-01-01T00:00:00Z. *)
Definition date_2023_10h : Date := mkDate (Int 1672567200000).
Definition date_2023_11h : Date := mkDate (Int 1672570800000).
Definition date_year_999 : Date := mkDate (Int (-30641760000000)).

Definition full_event : obj :=
  [("id", VStr "event1@example.com");
   ("summary", VStr "Test Event");
   ("start", VDate date_2023_10h);
   ("end", VDate date_2023_11h);
   ("description", VStr "This is a test event.");
   ("location", VStr "Conference Room");
   ("customField", VStr "value1")].

(** An Event without [id]. *)
Definition minimal_event : obj :=
  [("summary", VStr "Minimal Event");
   ("start", VDate date_2023_10h);
   ("end", VDate date_2023_11h)].

(** ** Further definitions for the properties of the code *)

(** The lines that [icalToWebDav] keeps: those of the blocks, without the
    [END:VEVENT] lines; [open] tells whether a block is open. *)
Fixpoint kept_lines (open : bool) (lines : list string) : list string :=
  match lines with
  | [] => []
  | l :: rest =>
      if is_begin l then l :: kept_lines true rest
      else if is_end l then kept_lines false rest
      else if open then l :: kept_lines true rest
      else kept_lines false rest
  end.

(** More texts of the test suite. *)
Definition no_event_text : string :=
  Str.join NL ["BEGIN:VCALENDAR"; "VERSION:2.0"; "END:VCALENDAR"].

Definition multipleEventsIcal : string :=
  Str.join NL
    ["BEGIN:VEVENT"; "SUMMARY:Event 1"; "UID:event1@example.com";
     "END:VEVENT";
     "BEGIN:VEVENT"; "SUMMARY:Event 2"; "UID:event2@example.com";
     "END:VEVENT"].

(** The number a string of decimal digits denotes, after the digits [a]
    already read. *)
Fixpoint digits_value (s : string) (a : Z) : Z :=
  match s with
  | EmptyString => a
  | String c rest =>
      match Num.digit_val c with
      | Some d => digits_value rest (10 * a + d)
      | None => a
      end
  end.

(** What [parseIcal] stores: a trimmed key without colon or line feed,
    other than [__proto__], and a non-empty trimmed string without line
    feed. *)
Definition parsed_property (p : string * value) : bool :=
  match p with
  | (key, VStr v) =>
      String.eqb (Str.trim key) key
      && negb (Str.contains Str.colon key)
      && negb (Str.contains Str.LF key)
      && negb (String.eqb key "__proto__")
      && Str.truthy v
      && String.eqb (Str.trim v) v
      && negb (Str.contains Str.LF v)
  | _ => false
  end.

(** A stored property that [icalToString] writes and [parseIcal] reads back
    as a property: its key is not empty and its line is no marker. *)
Definition rereadable_property (p : string * value) : bool :=
  match p with
  | (key, VStr v) => Str.truthy key && not_marker key v
  | _ => false
  end.

(** The property a line of a block stands for, if any: what the last branch
    of the loop of [parseIcal] stores for it. *)
Definition property_of_line (line : string) : option (string * string) :=
  match Str.split Str.colon line with
  | key :: valueParts =>
      let value := Str.trim (Str.join ":" valueParts) in
      if Str.truthy key && Str.truthy value
      then Some (Str.trim key, value)
      else None
  | [] => None
  end.

(** The record [parseIcal] builds from the body lines of a block. *)
Definition block_record (body : list string) : obj :=
  fold_left (fun ev line => parseIcal_property line ev) body [].

(** The value of the last line of a body that stands for a property named
    [K]. *)
Fixpoint last_value (K : string) (body : list string) : option string :=
  match body with
  | [] => None
  | line :: rest =>
      match last_value K rest with
      | Some v => Some v
      | None =>
          match property_of_line line with
          | Some (k, v) => if String.eqb k K then Some v else None
          | None => None
          end
      end
  end.

Definition duplicate_key_body : list string :=
  ["SUMMARY:First"; "UID:event1@example.com"; "SUMMARY:Second"].

(** The shape of a record [parseIcal] returns. *)
Definition record_shape (r : obj) : bool :=
  well_formed r && forallb parsed_property r.


Section Written.

Variable Date_toString : Date -> string.


End Written.


(** The days of month [m] (0 to 11). *)
Definition days_in_month (leap m : Z) : Z :=
  match m with
  | 1 => 28 + leap
  | 3 | 5 | 8 | 10 => 30
  | _ => 31
  end.

(** The fields of a calendar date and time of day in a year of four
    digits ([month] from 1 to 12). *)
Definition valid_fields (year month day hours minutes seconds : Z) : bool :=
  (1000 <=? year) && (year <=? 9999)
  && (1 <=? month) && (month <=? 12)
  && (1 <=? day)
  && (day <=? days_in_month (if Time.DaysInYear year =? 366 then 1 else 0)
                  (month - 1))
  && (0 <=? hours) && (hours <=? 23)
  && (0 <=? minutes) && (minutes <=? 59)
  && (0 <=? seconds) && (seconds <=? 59).

(** The text [YYYYMMDDTHHMMSSZ] of such fields. *)
Definition utc_text (year month day hours minutes seconds : Z) : string :=
  (Num.toString (Int year)
   ++ Str.padStart 2 "0" (Num.toString (Int month))
   ++ Str.padStart 2 "0" (Num.toString (Int day)))
  ++ "T" ++ Str.padStart 2 "0" (Num.toString (Int hours))
  ++ Str.padStart 2 "0" (Num.toString (Int minutes))
  ++ Str.padStart 2 "0" (Num.toString (Int seconds))
  ++ "Z".

(** One of the four properties [mapIcalObjectToEvent] requires is not in
    the record. *)
Definition lacks_required (r : obj) : bool :=
  negb (Obj.has_own "UID" r && Obj.has_own "SUMMARY" r
        && Obj.has_own "DTSTART" r && Obj.has_own "DTEND" r).

(** An Event [mapEventToIcalObject] maps without clash: its dates are
    [Date] objects and the upper-cased names of its custom fields are
    pairwise distinct and none of the reserved names. *)
Definition mappable_event (toUpperCase : string -> string) (event : obj)
  : bool :=
  is_Date (Obj.get "start" event)
  && is_Date (Obj.get "end" event)
  && forallb (fun key => negb (includes reserved_names (toUpperCase key)))
       (custom_keys event)
  && distinct (map toUpperCase (custom_keys event)).

Definition valid_event_text : string :=
  Str.join NL
    ["BEGIN:VEVENT"; "SUMMARY:Test Event"; "DTSTART:20230101T100000Z";
     "DTEND:20230101T110000Z"; "UID:event1@example.com";
     "X-CUSTOM:Custom Value"; "END:VEVENT"].

Definition valid_event_record : obj :=
  [("SUMMARY", VStr "Test Event");
   ("DTSTART", VStr "20230101T100000Z");
   ("DTEND", VStr "20230101T110000Z");
   ("UID", VStr "event1@example.com");
   ("X-CUSTOM", VStr "Custom Value")].

(** ** The pure parts of [CalDAVClient] ([webdav.ts]) *)

(** The constructor's [baseUrl]. *)
Definition CalDAVClient_baseUrl (url : string) : string :=
  if Str.endsWith url "/" then url else url ++ "/".

(** [s.includes(p)]. *)
Fixpoint Str_includes (s p : string) : bool :=
  Str.startsWith s p
  || match s with
     | EmptyString => false
     | String _ rest => Str_includes rest p
     end.

Section CalDAV.

Variable LocalTZA : Z -> bool -> Z.
Variable Date_toString : Date -> string.

(** The body [addEvent] and [updateEvent] send for a record. *)
Definition icalData_of (icalObject : obj) : string :=
  "BEGIN:VCALENDAR" ++ NL ++ "VERSION:2.0" ++ NL
  ++ "PRODID:-//dav-js//CalDAVClient 1.0//EN" ++ NL
  ++ icalToString Date_toString [icalObject] ++ NL ++ "END:VCALENDAR".

(** [for (const obj of parseIcal(calData))
       events.push(mapIcalObjectToEvent(obj))]. *)
Fixpoint push_events (events : list obj) (records : list obj)
  : completion (list obj) :=
  match records with
  | [] => Return events
  | obj :: rest =>
      match mapIcalObjectToEvent LocalTZA obj with
      | Return event => push_events (events ++ [event])%list rest
      | Throw e => Throw e
      end
  end.

(** The loop of [getEvents] over the texts of the [calendar-data]
    elements of the response. *)
Fixpoint getEvents_collect (events : list obj) (calDatas : list string)
  : completion (list obj) :=
  match calDatas with
  | [] => Return events
  | calData :: rest =>
      if Str_includes calData "BEGIN:VEVENT"
      then match push_events events (parseIcal calData) with
           | Return events' => getEvents_collect events' rest
           | Throw e => Throw e
           end
      else getEvents_collect events rest
  end.

(** The same loop without the test on [calData]. *)
Fixpoint collect_all (events : list obj) (calDatas : list string)
  : completion (list obj) :=
  match calDatas with
  | [] => Return events
  | calData :: rest =>
      match push_events events (parseIcal calData) with
      | Return events' => collect_all events' rest
      | Throw e => Throw e
      end
  end.

End CalDAV.

(** A zone whose local time is UTC shifted by a fixed [offset] (in ms). *)
Definition fixed_zone (offset : Z) : Z -> bool -> Z := fun _ _ => offset.

(** * Properties *)

(** ** Strings *)

Lemma truthy_app_l (a b : string) :
  Str.truthy a = true -> Str.truthy (a ++ b) = true.
Proof. destruct a; simpl; [discriminate | reflexivity]. Qed.

Lemma join_cons_cons (sep x y : string) (rest : list string) :
  Str.join sep (x :: y :: rest) = x ++ sep ++ Str.join sep (y :: rest).
Proof. reflexivity. Qed.

Lemma string_app_assoc (a b c : string) : (a ++ b) ++ c = a ++ b ++ c.
Proof. induction a as [|ch a IH]; simpl; [reflexivity | now rewrite IH]. Qed.

Lemma join_absorb (x l : string) (rest : list string) :
  Str.join NL ((x ++ NL ++ l) :: rest) = Str.join NL (x :: l :: rest).
Proof.
  rewrite join_cons_cons. destruct rest as [|y rest].
  - reflexivity.
  - rewrite join_cons_cons. now rewrite !string_app_assoc.
Qed.

Lemma is_begin_truthy (line : string) :
  is_begin line = true -> Str.truthy line = true.
Proof. destruct line; [discriminate | reflexivity]. Qed.

Lemma is_begin_not_end (line : string) :
  is_begin line = true -> is_end line = false.
Proof.
  unfold is_begin, is_end, Str.startsWith.
  destruct line as [|c line]; [discriminate|]. cbn [Str.startsWith].
  destruct (Ascii.eqb_spec "B" c) as [<-|]; [reflexivity | discriminate].
Qed.

(** ** The block extractor *)

Lemma icalToWebDav_body (out : list string) :
  forall (body : list string) (cur : string),
    Str.truthy cur = true ->
    Forall (fun l => is_begin l = false /\ is_end l = false) body ->
    fold_left icalToWebDav_step body (out, Some cur)
    = (out, Some (Str.join NL (cur :: body))).
Proof.
  induction body as [|l body IH]; intros cur Hcur Hbody.
  - reflexivity.
  - inversion Hbody as [|? ? [Hb He] Hrest]; subst. cbn [fold_left].
    replace (icalToWebDav_step (out, Some cur) l)
      with (out, Some (cur ++ NL ++ l)).
    + rewrite IH by (auto using truthy_app_l). now rewrite join_absorb.
    + unfold icalToWebDav_step, is_begin, is_end in *.
      rewrite Hb, He. cbn [open_block]. now rewrite Hcur.
Qed.

Lemma icalToWebDav_blocks_begin (pre : list string) (b : string) :
  is_begin b = true ->
  fold_left icalToWebDav_step (pre ++ [b]) ([], None)
  = (icalToWebDav_blocks pre, Some b).
Proof.
  intros Hb. rewrite fold_left_app. unfold icalToWebDav_blocks.
  destruct (fold_left icalToWebDav_step pre ([], None)) as [out cur].
  cbn [fold_left]. unfold icalToWebDav_step, is_begin in *. now rewrite Hb.
Qed.

(** C4. When the input ends inside a block (the last [BEGIN:VEVENT] line is
    followed by lines that are no markers), [icalToWebDav] returns the blocks
    extracted before it followed by that block, made of its [BEGIN:VEVENT]
    line and every line after it, unchanged. *)
Theorem icalToWebDav_flushes_open_block
  (icalData baseUrl : string) (pre : list string) (b : string)
  (body : list string) :
  Str.split Str.LF icalData = (pre ++ b :: body)%list ->
  is_begin b = true ->
  Forall (fun l => is_begin l = false /\ is_end l = false) body ->
  icalToWebDav icalData baseUrl
  = Str.join NL (icalToWebDav_blocks pre ++ [Str.join NL (b :: body)]).
Proof.
  intros Hsplit Hb Hbody. unfold icalToWebDav. rewrite Hsplit.
  unfold icalToWebDav_blocks at 1.
  replace (pre ++ b :: body)%list with ((pre ++ [b]) ++ body)%list
    by (now rewrite <- app_assoc).
  rewrite fold_left_app, icalToWebDav_blocks_begin by assumption.
  rewrite icalToWebDav_body by (auto using is_begin_truthy).
  assert (Hj : Str.truthy (Str.join NL (b :: body)) = true).
  { destruct body; [now apply is_begin_truthy|].
    rewrite join_cons_cons. now apply truthy_app_l, is_begin_truthy. }
  cbn [open_block]. now rewrite Hj.
Qed.

Lemma icalToWebDav_open_block_truthy (lines : list string) :
  forall (out : list string) (cur : string),
    fold_left icalToWebDav_step lines ([], None) = (out, Some cur) ->
    Str.truthy cur = true.
Proof.
  induction lines as [|x lines IH] using rev_ind; intros out cur H.
  - discriminate.
  - rewrite fold_left_app in H. cbn [fold_left] in H.
    destruct (fold_left icalToWebDav_step lines ([], None)) as [out0 cur0].
    unfold icalToWebDav_step in H.
    destruct (Str.startsWith x "BEGIN:VEVENT") eqn:Hb.
    + injection H as _ <-. now apply is_begin_truthy.
    + assert (Hsame : (out0, cur0) = (out, Some cur) -> Str.truthy cur = true)
        by (intros [= -> ->]; now apply (IH out)).
      destruct (Str.startsWith x "END:VEVENT");
        destruct (open_block cur0) as [c|] eqn:Ho; try discriminate; auto.
      injection H as _ <-. apply truthy_app_l.
      unfold open_block in Ho. destruct cur0 as [c0|]; [|discriminate].
      destruct (Str.truthy c0) eqn:Hc; [|discriminate]. now injection Ho as <-.
Qed.

(** The same in terms of the loop: a block held by [currentLine] when the
    lines are exhausted is the last one of the output. *)
Lemma icalToWebDav_open_state_flushed (icalData baseUrl : string)
  (out : list string) (cur : string) :
  fold_left icalToWebDav_step (Str.split Str.LF icalData) ([], None)
  = (out, Some cur) ->
  icalToWebDav icalData baseUrl = Str.join NL (out ++ [cur]).
Proof.
  intros H. unfold icalToWebDav, icalToWebDav_blocks. rewrite H.
  cbn [open_block]. now rewrite (icalToWebDav_open_block_truthy _ _ _ H).
Qed.

(** ** The scan of [parseIcal] *)

Lemma parseIcal_step_prefix (events : list obj) (cur : option obj)
  (line : string) :
  parseIcal_step (events, cur) line
  = ((events ++ fst (parseIcal_step ([], cur) line))%list,
     snd (parseIcal_step ([], cur) line)).
Proof.
  unfold parseIcal_step.
  destruct (Str.startsWith line "BEGIN:VEVENT");
    [|destruct (Str.startsWith line "END:VEVENT")];
    destruct cur; cbn [fst snd app]; now rewrite ?app_nil_r.
Qed.

Lemma parseIcal_fold_prefix (lines : list string) :
  forall (events : list obj) (cur : option obj),
    fold_left parseIcal_step lines (events, cur)
    = ((events ++ fst (fold_left parseIcal_step lines ([], cur)))%list,
       snd (fold_left parseIcal_step lines ([], cur))).
Proof.
  induction lines as [|l lines IH]; intros events cur; cbn [fold_left].
  - cbn [fst snd]. now rewrite app_nil_r.
  - rewrite parseIcal_step_prefix.
    destruct (parseIcal_step ([], cur) l) as [e1 c1]. cbn [fst snd].
    rewrite IH, (IH e1). cbn [fst snd]. now rewrite app_assoc.
Qed.

Lemma parseIcal_step_begin (st : list obj * option obj) (b : string) :
  is_begin b = true -> parseIcal_step st b = (fst st, Some []).
Proof.
  intros Hb. destruct st as [events cur]. unfold parseIcal_step, is_begin in *.
  now rewrite Hb.
Qed.

Lemma parseIcal_lines_begin (pre : list string) (b : string)
  (rest : list string) :
  is_begin b = true ->
  parseIcal_lines (pre ++ b :: rest)
  = (parseIcal_lines pre ++ parseIcal_lines (b :: rest))%list.
Proof.
  intros Hb. unfold parseIcal_lines. rewrite fold_left_app. cbn [fold_left].
  rewrite !parseIcal_step_begin by assumption.
  now rewrite parseIcal_fold_prefix.
Qed.

Lemma parseIcal_no_end (body : list string) :
  Forall (fun l => is_end l = false) body ->
  forall cur, fst (fold_left parseIcal_step body ([], cur)) = [].
Proof.
  induction 1 as [|l body Hl _ IH]; intros cur; cbn [fold_left].
  - reflexivity.
  - unfold parseIcal_step at 2. unfold is_end in Hl. rewrite Hl.
    destruct (Str.startsWith l "BEGIN:VEVENT"); [apply IH|].
    destruct cur; apply IH.
Qed.

Lemma parseIcal_emitted_at_end (lines : list string) :
  forall r, In r (fst (parseIcal_state lines)) ->
  exists before l after,
    lines = (before ++ l :: after)%list /\ is_end l = true
    /\ snd (parseIcal_state before) = Some r.
Proof.
  induction lines as [|x ls IH] using rev_ind; intros r Hin.
  - destruct Hin.
  - assert (Hkeep : In r (fst (parseIcal_state ls)) ->
                    exists before l after,
                      (ls ++ [x])%list = (before ++ l :: after)%list
                      /\ is_end l = true
                      /\ snd (parseIcal_state before) = Some r).
    { intros H. destruct (IH r H) as (before & l & after & -> & He & Hs).
      exists before, l, (after ++ [x])%list.
      now rewrite <- app_assoc. }
    unfold parseIcal_state in Hin. rewrite fold_left_app in Hin.
    cbn [fold_left] in Hin. fold (parseIcal_state ls) in Hin.
    destruct (parseIcal_state ls) as [events cur] eqn:Hst.
    unfold parseIcal_step in Hin.
    destruct (Str.startsWith x "BEGIN:VEVENT"); [now apply Hkeep|].
    destruct (Str.startsWith x "END:VEVENT") eqn:He.
    + destruct cur as [ev|]; [|now apply Hkeep].
      cbn [fst] in Hin. apply in_app_or in Hin. destruct Hin as [H|[<-|[]]].
      * now apply Hkeep.
      * exists ls, x, []. rewrite Hst. auto.
    + destruct cur; now apply Hkeep.
Qed.

(** C2 (as amended). A [BEGIN:VEVENT] line read while a record is open
    pushes nothing: the open record is dropped and replaced by an empty one,
    so the output is that of the lines before followed by that of the lines
    from the new [BEGIN:VEVENT] on. *)
Theorem parseIcal_nested_begin_drops_open_record
  (icalData : string) (pre : list string) (b : string) (rest : list string)
  (outer : obj) :
  Str.split Str.LF icalData = (pre ++ b :: rest)%list ->
  is_begin b = true ->
  snd (parseIcal_state pre) = Some outer ->
  parseIcal_state (pre ++ [b]) = (parseIcal_lines pre, Some [])
  /\ parseIcal icalData
     = (parseIcal_lines pre ++ parseIcal_lines (b :: rest))%list.
Proof.
  intros Hsplit Hb _. split.
  - unfold parseIcal_state. rewrite fold_left_app. cbn [fold_left].
    now rewrite parseIcal_step_begin.
  - unfold parseIcal. rewrite Hsplit. now apply parseIcal_lines_begin.
Qed.

(** C9. A record still open at the end of the input is not returned, and
    every returned record is the one that was open when some [END:VEVENT]
    line was read. *)
Theorem parseIcal_returns_closed_records_only (icalData : string) :
  (forall (pre : list string) (b : string) (body : list string),
      Str.split Str.LF icalData = (pre ++ b :: body)%list ->
      is_begin b = true ->
      Forall (fun l => is_end l = false) body ->
      parseIcal icalData = parseIcal_lines pre)
  /\ (forall r : obj,
         In r (parseIcal icalData) ->
         exists (before : list string) (l : string) (after : list string),
           Str.split Str.LF icalData = (before ++ l :: after)%list
           /\ is_end l = true
           /\ snd (parseIcal_state before) = Some r).
Proof.
  split.
  - intros pre b body Hsplit Hb Hbody. unfold parseIcal. rewrite Hsplit.
    rewrite parseIcal_lines_begin by assumption.
    unfold parseIcal_lines at 2. cbn [fold_left].
    rewrite parseIcal_step_begin by assumption.
    rewrite parseIcal_no_end by assumption. apply app_nil_r.
  - intros r Hin. now apply parseIcal_emitted_at_end.
Qed.

(** C8. The functions of each pair compute the same result. *)
Theorem paired_functions_agree (Date_toString : Date -> string) :
  (forall s baseUrl : string, icalToWebDav s baseUrl = webDavToIcal s)
  /\ (forall s : string, parseIcal s = parseWebDav s)
  /\ (forall r : list obj,
         icalToString Date_toString r = webDavToString Date_toString r).
Proof.
  split; [|split].
  - intros s baseUrl. unfold icalToWebDav, icalToWebDav_blocks, webDavToIcal.
    change webDavToIcal_step with icalToWebDav_step.
    now destruct (fold_left icalToWebDav_step (Str.split Str.LF s) ([], None)).
  - intros s. reflexivity.
  - intros r. reflexivity.
Qed.

(** C10. The result of [icalToWebDav] does not depend on [baseUrl]. *)
Theorem icalToWebDav_ignores_baseUrl (icalData baseUrl1 baseUrl2 : string) :
  icalToWebDav icalData baseUrl1 = icalToWebDav icalData baseUrl2.
Proof. reflexivity. Qed.

(** ** Splitting and joining *)

Lemma contains_app (c : ascii) (a b : string) :
  Str.contains c (a ++ b) = Str.contains c a || Str.contains c b.
Proof.
  unfold Str.contains. induction a as [|x a IH]; cbn; [reflexivity|].
  now rewrite IH, orb_assoc.
Qed.

Lemma contains_cons (c x : ascii) (s : string) :
  Str.contains c (String x s) = Ascii.eqb c x || Str.contains c s.
Proof. reflexivity. Qed.

Lemma split_not_nil (c : ascii) (s : string) : Str.split c s <> [].
Proof.
  destruct s as [|x s]; cbn; [discriminate|].
  destruct (Ascii.eqb x c); [discriminate|].
  destruct (Str.split c s); discriminate.
Qed.

Lemma split_without_separator (c : ascii) (s : string) :
  Str.contains c s = false -> Str.split c s = [s].
Proof.
  induction s as [|x s IH]; intros H; [reflexivity|].
  rewrite contains_cons in H. apply orb_false_elim in H. destruct H as [Hx Hs].
  cbn. rewrite Ascii.eqb_sym, Hx. now rewrite IH.
Qed.

Lemma split_at_first_separator (c : ascii) (a b : string) :
  Str.contains c a = false ->
  Str.split c (a ++ String c b) = a :: Str.split c b.
Proof.
  induction a as [|x a IH]; intros H.
  - cbn. now rewrite Ascii.eqb_refl.
  - rewrite contains_cons in H. apply orb_false_elim in H.
    destruct H as [Hx Ha].
    cbn. rewrite Ascii.eqb_sym, Hx. now rewrite IH.
Qed.

Lemma join_head (sep : string) (x : ascii) (h : string) (t : list string) :
  Str.join sep (String x h :: t) = String x (Str.join sep (h :: t)).
Proof. destruct t; reflexivity. Qed.

Lemma join_split (c : ascii) (s : string) :
  Str.join (String c EmptyString) (Str.split c s) = s.
Proof.
  induction s as [|x s IH]; [reflexivity|]. cbn [Str.split].
  destruct (Ascii.eqb_spec x c) as [->|Hx].
  - destruct (Str.split c s) as [|h t] eqn:E; [now apply split_not_nil in E|].
    rewrite join_cons_cons. cbn [append]. now rewrite IH.
  - destruct (Str.split c s) as [|h t] eqn:E; [now apply split_not_nil in E|].
    now rewrite join_head, IH.
Qed.

Lemma split_join (c : ascii) (lines : list string) :
  lines <> [] ->
  Forall (fun l => Str.contains c l = false) lines ->
  Str.split c (Str.join (String c EmptyString) lines) = lines.
Proof.
  intros Hne Hall. induction Hall as [|l rest Hl Hrest IH]; [contradiction|].
  destruct rest as [|l2 rest].
  - now apply split_without_separator.
  - rewrite join_cons_cons.
    change (l ++ String c EmptyString
              ++ Str.join (String c EmptyString) (l2 :: rest))
      with (l ++ String c (Str.join (String c EmptyString) (l2 :: rest))).
    rewrite split_at_first_separator by assumption.
    now rewrite IH.
Qed.

(** ** Objects *)

Lemma precedes_irrefl (k : string) : precedes k k = false.
Proof.
  unfold precedes. destruct (Obj.array_index k).
  - apply Z.ltb_irrefl.
  - now rewrite String.eqb_refl.
Qed.

Lemma well_formed_app (a b : obj) :
  well_formed (a ++ b)%list = true ->
  well_formed a = true
  /\ Forall (fun p => Forall (fun q => precedes (fst p) (fst q) = true) b) a.
Proof.
  induction a as [|[k v] a IH]; cbn [app well_formed]; intros H.
  - split; [reflexivity | constructor].
  - apply andb_true_iff in H. destruct H as [Hk Hrest].
    destruct (IH Hrest) as [Hwf Hall].
    rewrite forallb_app in Hk. apply andb_true_iff in Hk.
    destruct Hk as [Hka Hkb].
    split; [now rewrite Hka|].
    constructor; [|assumption].
    now apply Forall_forall, forallb_forall.
Qed.

Lemma has_own_absent (k : string) (o : obj) :
  Forall (fun p => precedes (fst p) k = true) o -> Obj.has_own k o = false.
Proof.
  induction 1 as [|[k' v'] o Hk _ IH]; [reflexivity|].
  cbn [Obj.has_own fst] in *. rewrite IH, orb_false_r.
  destruct (String.eqb_spec k k') as [->|]; [|reflexivity].
  now rewrite precedes_irrefl in Hk.
Qed.

Lemma insert_index_last (i : Z) (k : string) (v : value) (o : obj) :
  Obj.array_index k = Some i ->
  Forall (fun p => precedes (fst p) k = true) o ->
  Obj.insert_index i k v o = (o ++ [(k, v)])%list.
Proof.
  intros Hi. induction 1 as [|[k' v'] o Hk _ IH]; [reflexivity|].
  cbn [Obj.insert_index app fst] in *. unfold precedes in Hk. rewrite Hi in Hk.
  destruct (Obj.array_index k') as [j|]; [|discriminate].
  now rewrite Hk, IH.
Qed.

Lemma set_appends (k : string) (v : value) (o : obj) :
  well_formed (o ++ [(k, v)])%list = true ->
  String.eqb k "__proto__" = false ->
  Obj.set k v o = (o ++ [(k, v)])%list.
Proof.
  intros Hwf Hproto. apply well_formed_app in Hwf. destruct Hwf as [_ Hall].
  assert (Hprec : Forall (fun p => precedes (fst p) k = true) o).
  { eapply Forall_impl; [|exact Hall]. intros p Hp. now inversion Hp. }
  unfold Obj.set. rewrite Hproto, has_own_absent by assumption.
  destruct (Obj.array_index k) as [i|] eqn:Hi; [|reflexivity].
  now apply insert_index_last.
Qed.

(** ** The codec round trip *)

Lemma plain_property_inv (k : string) (x : value) :
  plain_property (k, x) = true ->
  exists v, x = VStr v
    /\ Str.truthy k = true /\ Str.contains Str.colon k = false
    /\ Str.contains Str.LF k = false /\ Str.trim k = k
    /\ String.eqb k "__proto__" = false
    /\ Str.truthy v = true /\ Str.contains Str.LF v = false /\ Str.trim v = v
    /\ is_begin (k ++ ":" ++ v) = false /\ is_end (k ++ ":" ++ v) = false.
Proof.
  destruct x as [| | | |v|]; try discriminate. cbn [plain_property].
  unfold plain_key, plain_value, not_marker, is_begin, is_end.
  rewrite !andb_true_iff, !negb_true_iff.
  intros [[[[[[Hk1 Hk2] Hk3] Hk4] Hk5] [[Hv1 Hv2] Hv3]] [Hm1 Hm2]].
  apply String.eqb_eq in Hk4, Hv3. exists v. tauto.
Qed.

Lemma parseIcal_property_plain (k v : string) (acc : obj) :
  plain_property (k, VStr v) = true ->
  well_formed (acc ++ [(k, VStr v)])%list = true ->
  parseIcal_property (k ++ ":" ++ v) acc = (acc ++ [(k, VStr v)])%list.
Proof.
  intros Hp Hwf. apply plain_property_inv in Hp.
  destruct Hp as (v' & [= <-] & Hk & Hkc & _ & Hkt & Hkp & Hv & _ & Hvt & _).
  unfold parseIcal_property.
  change (k ++ ":" ++ v) with (k ++ String Str.colon v).
  rewrite split_at_first_separator by assumption.
  change ":" with (String Str.colon EmptyString).
  rewrite join_split, Hvt, Hkt, Hk, Hv. cbn [andb].
  now apply set_appends.
Qed.

Lemma parseIcal_step_end (events : list obj) (ev : obj) :
  parseIcal_step (events, Some ev) "END:VEVENT" = ((events ++ [ev])%list, None).
Proof. reflexivity. Qed.

Section Codec.

Variable Date_toString : Date -> string.

Lemma parseIcal_properties (events : list obj) :
  forall (r acc : obj),
    well_formed (acc ++ r)%list = true ->
    forallb plain_property r = true ->
    fold_left parseIcal_step (icalToString_properties Date_toString r)
      (events, Some acc)
    = (events, Some (acc ++ r)%list).
Proof.
  induction r as [|[k x] r IH]; intros acc Hwf Hall.
  - cbn. now rewrite app_nil_r.
  - cbn [forallb] in Hall. apply andb_true_iff in Hall.
    destruct Hall as [Hp Hall].
    destruct (plain_property_inv _ _ Hp)
      as (v & -> & Hk & _ & _ & _ & _ & Hv & _ & _ & Hb & He).
    unfold icalToString_properties. cbn [flat_map Val.truthy ToString].
    rewrite Hk, Hv. cbn [andb app fold_left].
    fold (icalToString_properties Date_toString r).
    replace (parseIcal_step (events, Some acc) (k ++ ":" ++ v))
      with (events, Some (acc ++ [(k, VStr v)])%list).
    + replace (acc ++ (k, VStr v) :: r)%list
        with ((acc ++ [(k, VStr v)]) ++ r)%list in *
        by (now rewrite <- app_assoc).
      now apply IH.
    + unfold parseIcal_step. unfold is_begin, is_end in Hb, He. rewrite Hb, He.
      rewrite parseIcal_property_plain; [reflexivity | assumption |].
      replace (acc ++ (k, VStr v) :: r)%list
        with ((acc ++ [(k, VStr v)]) ++ r)%list in Hwf
        by (now rewrite <- app_assoc).
      now apply well_formed_app in Hwf.
Qed.

Lemma parseIcal_records :
  forall (records events : list obj),
    forallb plain_record records = true ->
    fold_left parseIcal_step (icalToString_lines Date_toString records)
      (events, None)
    = ((events ++ records)%list, None).
Proof.
  induction records as [|r records IH]; intros events Hall.
  - cbn. now rewrite app_nil_r.
  - cbn [forallb] in Hall. apply andb_true_iff in Hall.
    destruct Hall as [Hr Hall]. unfold plain_record in Hr.
    apply andb_true_iff in Hr. destruct Hr as [Hwf Hp].
    unfold icalToString_lines. cbn [flat_map].
    fold (icalToString_lines Date_toString records).
    rewrite <- app_comm_cons. cbn [fold_left]. rewrite !fold_left_app.
    rewrite parseIcal_step_begin by reflexivity. cbn [fst].
    rewrite parseIcal_properties by assumption.
    cbn [fold_left app]. rewrite parseIcal_step_end.
    rewrite IH by assumption. now rewrite <- app_assoc.
Qed.

Lemma icalToString_lines_no_LF (records : list obj) :
  forallb plain_record records = true ->
  Forall (fun l => Str.contains Str.LF l = false)
         (icalToString_lines Date_toString records).
Proof.
  induction records as [|r records IH]; intros Hall; [constructor|].
  cbn [forallb] in Hall. apply andb_true_iff in Hall.
  destruct Hall as [Hr Hall].
  unfold plain_record in Hr. apply andb_true_iff in Hr. destruct Hr as [_ Hp].
  unfold icalToString_lines. cbn [flat_map].
  fold (icalToString_lines Date_toString records).
  rewrite <- app_comm_cons. constructor; [reflexivity|].
  apply Forall_app. split; [|now apply IH].
  apply Forall_app. split; [|now repeat constructor].
  clear -Hp. induction r as [|[k x] r IHr]; [constructor|].
  cbn [forallb] in Hp. apply andb_true_iff in Hp. destruct Hp as [Hp Hrest].
  destruct (plain_property_inv _ _ Hp)
    as (v & -> & Hk & _ & Hkl & _ & _ & Hv & Hvl & _).
  unfold icalToString_properties. cbn [flat_map Val.truthy ToString].
  rewrite Hk, Hv. cbn [andb app]. constructor; [|now apply IHr].
  rewrite !contains_app, Hkl, Hvl. reflexivity.
Qed.

Lemma icalToString_lines_not_nil (records : list obj) :
  records <> [] -> icalToString_lines Date_toString records <> [].
Proof. destruct records; [contradiction | discriminate]. Qed.

End Codec.

(** C1 (as amended). Parsing the serialized text gives back a non-empty
    list of records (property lists of actual objects) when every key is
    non-empty, trimmed, free of colons and line feeds and other than
    [__proto__], every value is a non-empty, trimmed string free of line
    feeds, and no property line starts with [BEGIN:VEVENT] or
    [END:VEVENT]. *)
Theorem parseIcal_icalToString_roundtrip
  (Date_toString : Date -> string) (records : list obj) :
  records <> [] ->
  forallb plain_record records = true ->
  parseIcal (icalToString Date_toString records) = records.
Proof.
  intros Hne Hall. unfold parseIcal, icalToString, NL.
  rewrite split_join
    by (auto using icalToString_lines_not_nil, icalToString_lines_no_LF).
  unfold parseIcal_lines. now rewrite parseIcal_records.
Qed.

(** ** Calendar arithmetic *)

Lemma DayFromYear_succ (y : Z) :
  Time.DayFromYear (y + 1) = Time.DayFromYear y + Time.DaysInYear y.
Proof.
  unfold Time.DayFromYear, Time.DaysInYear.
  destruct (Z.eqb_spec (y mod 4) 0); destruct (Z.eqb_spec (y mod 100) 0);
    destruct (Z.eqb_spec (y mod 400) 0); cbv [andb orb negb];
    Z.div_mod_to_equations; lia.
Qed.

Lemma DaysInYear_cases (y : Z) :
  Time.DaysInYear y = 365 \/ Time.DaysInYear y = 366.
Proof.
  unfold Time.DaysInYear.
  destruct ((y mod 4 =? 0) && (negb (y mod 100 =? 0) || (y mod 400 =? 0)));
    auto.
Qed.

Lemma YearFromDay_spec (d : Z) :
  Time.DayFromYear (Time.YearFromDay d) <= d
  < Time.DayFromYear (Time.YearFromDay d + 1).
Proof.
  unfold Time.YearFromDay.
  set (y0 := 1970 + d * 400 / 146097).
  assert (H1 : Time.DayFromYear (y0 - 1) <= d)
    by (unfold Time.DayFromYear, y0; Z.div_mod_to_equations; lia).
  assert (H2 : d < Time.DayFromYear (y0 + 2))
    by (unfold Time.DayFromYear, y0; Z.div_mod_to_equations; lia).
  destruct (Z.ltb_spec d (Time.DayFromYear y0)).
  - replace (y0 - 1 + 1) with y0 by lia. lia.
  - destruct (Z.leb_spec (Time.DayFromYear (y0 + 1)) d).
    + replace (y0 + 1 + 1) with (y0 + 2) by lia. lia.
    + lia.
Qed.

Lemma DayWithinYear_range (t : Z) :
  0 <= Time.DayWithinYear t < Time.DaysInYear (Time.YearFromTime t).
Proof.
  unfold Time.DayWithinYear, Time.YearFromTime.
  pose proof (YearFromDay_spec (Time.Day t)) as H.
  rewrite DayFromYear_succ in H. lia.
Qed.

(** The month and the day of the month locate the day within its year. *)
Lemma month_and_date (t : Z) :
  0 <= Time.MonthFromTime t <= 11
  /\ 1 <= Time.DateFromTime t <= 31
  /\ Time.DaysBeforeMonth (Time.InLeapYear t) (Time.MonthFromTime t)
     + Time.DateFromTime t - 1 = Time.DayWithinYear t.
Proof.
  pose proof (DayWithinYear_range t) as Hr.
  unfold Time.DateFromTime, Time.MonthFromTime, Time.InLeapYear.
  destruct (DaysInYear_cases (Time.YearFromTime t)) as [E|E]; rewrite E in *;
    cbn [Z.eqb Pos.eqb];
    set (d := Time.DayWithinYear t) in *;
    repeat match goal with
           | |- context [?a <? ?b] => destruct (Z.ltb_spec a b)
           end;
    cbn [Time.DaysBeforeMonth]; lia.
Qed.

Lemma MakeDay_of_time (t : Z) :
  Time.MakeDay (Time.YearFromTime t) (Time.MonthFromTime t)
    (Time.DateFromTime t)
  = Time.Day t.
Proof.
  destruct (month_and_date t) as (Hm & _ & Hd).
  unfold Time.MakeDay.
  rewrite Z.div_small, Z.mod_small, Z.add_0_r by lia.
  fold (Time.InLeapYear t).
  unfold Time.DayWithinYear in Hd. lia.
Qed.

Lemma MakeTime_of_time (t : Z) :
  Time.msFromTime t = 0 ->
  Time.MakeTime (Time.HourFromTime t) (Time.MinFromTime t)
    (Time.SecFromTime t) 0
  = Time.TimeWithinDay t.
Proof.
  unfold Time.msFromTime, Time.MakeTime, Time.HourFromTime, Time.MinFromTime,
    Time.SecFromTime, Time.TimeWithinDay, Time.msPerHour, Time.msPerMinute,
    Time.msPerSecond, Time.msPerDay.
  intros H. Z.div_mod_to_equations. lia.
Qed.

Lemma time_fields_range (t : Z) :
  0 <= Time.HourFromTime t <= 23
  /\ 0 <= Time.MinFromTime t <= 59
  /\ 0 <= Time.SecFromTime t <= 59.
Proof.
  unfold Time.HourFromTime, Time.MinFromTime, Time.SecFromTime.
  repeat split; Z.div_mod_to_equations; lia.
Qed.

(** ** Reading back what [formatToIcalDateTime] writes *)

Lemma forallb_range (P : Z -> bool) (lo : Z) (n : nat) :
  forallb P (map (fun i => lo + Z.of_nat i) (seq 0 n)) = true ->
  forall z, lo <= z < lo + Z.of_nat n -> P z = true.
Proof.
  intros H z Hz. rewrite forallb_forall in H. apply H.
  apply in_map_iff. exists (Z.to_nat (z - lo)). split; [lia|].
  apply in_seq. lia.
Qed.

Lemma reads_back_inv (width : nat) (text : string) (n : Z) :
  reads_back width text n = true ->
  String.length text = width /\ Num.parseInt text = Int n.
Proof.
  unfold reads_back. intros H. apply andb_true_iff in H. destruct H as [Hl Hp].
  apply Nat.eqb_eq in Hl. split; [assumption|].
  destruct (Num.parseInt text); [discriminate|].
  apply Z.eqb_eq in Hp. now subst.
Qed.

Lemma year_reads_back (y : Z) :
  1000 <= y <= 9999 ->
  String.length (Num.toString (Int y)) = 4%nat
  /\ Num.parseInt (Num.toString (Int y)) = Int y.
Proof.
  intros Hy. apply reads_back_inv.
  apply (forallb_range (fun y => reads_back 4 (Num.toString (Int y)) y)
           1000 (Z.to_nat 9000)); [vm_compute; reflexivity | lia].
Qed.

Lemma two_digits_read_back (n : Z) :
  0 <= n <= 99 ->
  String.length (Str.padStart 2 "0" (Num.toString (Int n))) = 2%nat
  /\ Num.parseInt (Str.padStart 2 "0" (Num.toString (Int n))) = Int n.
Proof.
  intros Hn. apply reads_back_inv.
  apply (forallb_range
           (fun n => reads_back 2 (Str.padStart 2 "0" (Num.toString (Int n))) n)
           0 (Z.to_nat 100)); [vm_compute; reflexivity | lia].
Qed.

Lemma length_2_inv (s : string) :
  String.length s = 2%nat -> exists a b, s = String a (String b EmptyString).
Proof.
  destruct s as [|a [|b [|c s]]]; try discriminate. intros _. now exists a, b.
Qed.

Lemma length_4_inv (s : string) :
  String.length s = 4%nat ->
  exists a b c d, s = String a (String b (String c (String d EmptyString))).
Proof.
  destruct s as [|a [|b [|c [|d [|e s]]]]]; try discriminate.
  intros _. now exists a, b, c, d.
Qed.

Section DateText.

Variable LocalTZA : Z -> bool -> Z.

Lemma parseIcalDateTime_of_parts (Y Mo D H Mi S : string) :
  String.length Y = 4%nat -> String.length Mo = 2%nat ->
  String.length D = 2%nat -> String.length H = 2%nat ->
  String.length Mi = 2%nat -> String.length S = 2%nat ->
  parseIcalDateTime LocalTZA
    (Some ((Y ++ Mo ++ D) ++ "T" ++ H ++ Mi ++ S ++ "Z"))
  = Some (Date_UTC (Num.parseInt Y) (Num.sub (Num.parseInt Mo) (Int 1))
            (Num.parseInt D) (Num.parseInt H) (Num.parseInt Mi)
            (Num.parseInt S)).
Proof.
  intros HY HMo HD HH HMi HS.
  destruct (length_4_inv Y HY) as (y1 & y2 & y3 & y4 & ->).
  destruct (length_2_inv Mo HMo) as (m1 & m2 & ->).
  destruct (length_2_inv D HD) as (d1 & d2 & ->).
  destruct (length_2_inv H HH) as (h1 & h2 & ->).
  destruct (length_2_inv Mi HMi) as (i1 & i2 & ->).
  destruct (length_2_inv S HS) as (s1 & s2 & ->).
  reflexivity.
Qed.

(** A valid date with whole seconds and a four-digit UTC year is read
    back from its UTC rendering. *)
Lemma parseIcalDateTime_formatToIcalDateTime (t : Z) :
  Time.msFromTime t = 0 ->
  1000 <= Time.YearFromTime t <= 9999 ->
  parseIcalDateTime LocalTZA
    (Some (formatToIcalDateTime LocalTZA (mkDate (Int t)) false))
  = Some (mkDate (Int t)).
Proof.
  intros Hms Hy.
  destruct (month_and_date t) as (Hm & Hd & _).
  destruct (time_fields_range t) as (Hh & Hmi & Hs).
  unfold formatToIcalDateTime, getUTCFullYear, getUTCMonth, getUTCDate,
    getUTCHours, getUTCMinutes, getUTCSeconds, Num.add.
  destruct (year_reads_back _ Hy) as [Ly Py].
  destruct (two_digits_read_back (Time.MonthFromTime t + 1)) as [Lm Pm]; [lia|].
  destruct (two_digits_read_back (Time.DateFromTime t)) as [Ld Pd]; [lia|].
  destruct (two_digits_read_back (Time.HourFromTime t)) as [Lh Ph]; [lia|].
  destruct (two_digits_read_back (Time.MinFromTime t)) as [Li Pi]; [lia|].
  destruct (two_digits_read_back (Time.SecFromTime t)) as [Ls Ps]; [lia|].
  rewrite parseIcalDateTime_of_parts by assumption.
  rewrite Py, Pm, Pd, Ph, Pi, Ps. f_equal.
  unfold Date_UTC, Time.UTC_of_fields, Time.date_of_fields, Num.sub.
  replace (Time.MonthFromTime t + 1 - 1) with (Time.MonthFromTime t) by lia.
  replace ((0 <=? Time.YearFromTime t) && (Time.YearFromTime t <=? 99))
    with false by (symmetry; apply andb_false_iff; right; lia).
  rewrite MakeDay_of_time, MakeTime_of_time by assumption.
  unfold Time.MakeDate, Time.Day, Time.TimeWithinDay.
  replace (t / Time.msPerDay * Time.msPerDay + t mod Time.msPerDay) with t
    by (pose proof (Z.div_mod t Time.msPerDay); unfold Time.msPerDay in *; lia).
  unfold Time.TimeClip. f_equal.
  destruct (Z.ltb_spec 8640000000000000 (Z.abs t)) as [Hbig|]; [|reflexivity].
  exfalso.
  pose proof (YearFromDay_spec (Time.Day t)) as Hspec.
  fold (Time.YearFromTime t) in Hspec.
  assert (Time.DayFromYear 1000 <= Time.DayFromYear (Time.YearFromTime t))
    by (unfold Time.DayFromYear; Z.div_mod_to_equations; lia).
  assert (Time.DayFromYear (Time.YearFromTime t + 1) <= Time.DayFromYear 10000)
    by (unfold Time.DayFromYear; Z.div_mod_to_equations; lia).
  unfold Time.Day, Time.msPerDay in Hspec.
  unfold Time.DayFromYear in *. Z.div_mod_to_equations. lia.
Qed.

End DateText.

Lemma length_app (a b : string) :
  String.length (a ++ b) = (String.length a + String.length b)%nat.
Proof. induction a as [|c a IH]; cbn; [reflexivity | now rewrite IH]. Qed.

(** For a valid date with a UTC year of four digits the UTC rendering has
    the sixteen characters of [YYYYMMDDTHHMMSSZ]. *)
Lemma formatToIcalDateTime_width (LocalTZA : Z -> bool -> Z) (t : Z) :
  1000 <= Time.YearFromTime t <= 9999 ->
  String.length (formatToIcalDateTime LocalTZA (mkDate (Int t)) false) = 16%nat.
Proof.
  intros Hy.
  destruct (month_and_date t) as (Hm & Hd & _).
  destruct (time_fields_range t) as (Hh & Hmi & Hs).
  unfold formatToIcalDateTime, getUTCFullYear, getUTCMonth, getUTCDate,
    getUTCHours, getUTCMinutes, getUTCSeconds, Num.add.
  destruct (year_reads_back _ Hy) as [Ly _].
  destruct (two_digits_read_back (Time.MonthFromTime t + 1)) as [Lm _]; [lia|].
  destruct (two_digits_read_back (Time.DateFromTime t)) as [Ld _]; [lia|].
  destruct (two_digits_read_back (Time.HourFromTime t)) as [Lh _]; [lia|].
  destruct (two_digits_read_back (Time.MinFromTime t)) as [Li _]; [lia|].
  destruct (two_digits_read_back (Time.SecFromTime t)) as [Ls _]; [lia|].
  rewrite !length_app, Ly, Lm, Ld, Lh, Li, Ls. reflexivity.
Qed.

(** ** Reading after writing *)

Lemma get_absent (k : string) (o : obj) :
  Obj.has_own k o = false -> Obj.get k o = VUndefined.
Proof.
  induction o as [|[k' v'] o IH]; [reflexivity|]. cbn [Obj.has_own Obj.get].
  destruct (String.eqb k k'); [discriminate | exact IH].
Qed.

Lemma get_replace_same (k : string) (v : value) (o : obj) :
  Obj.has_own k o = true -> Obj.get k (Obj.replace k v o) = v.
Proof.
  induction o as [|[k' v'] o IH]; [discriminate|].
  cbn [Obj.has_own Obj.replace].
  destruct (String.eqb k k') eqn:E; cbn [Obj.get].
  - now rewrite E.
  - rewrite E. exact IH.
Qed.

Lemma get_replace_other (k k' : string) (v : value) (o : obj) :
  String.eqb k k' = false -> Obj.get k (Obj.replace k' v o) = Obj.get k o.
Proof.
  intros Hne. induction o as [|[k2 v2] o IH]; [reflexivity|].
  cbn [Obj.replace]. destruct (String.eqb_spec k' k2) as [<-|]; cbn [Obj.get].
  - now rewrite Hne.
  - now rewrite IH.
Qed.

Lemma get_insert_index_same (i : Z) (k : string) (v : value) (o : obj) :
  Obj.has_own k o = false -> Obj.get k (Obj.insert_index i k v o) = v.
Proof.
  induction o as [|[k' v'] o IH]; cbn [Obj.has_own Obj.insert_index].
  - intros _. cbn. now rewrite String.eqb_refl.
  - destruct (String.eqb k k') eqn:E; [discriminate|]. cbn [orb]. intros H.
    destruct (Obj.array_index k') as [j|]; [destruct (j <? i)|]; cbn [Obj.get];
      rewrite ?E, ?String.eqb_refl; auto.
Qed.

Lemma get_insert_index_other (i : Z) (k k' : string) (v : value) (o : obj) :
  String.eqb k k' = false ->
  Obj.get k (Obj.insert_index i k' v o) = Obj.get k o.
Proof.
  intros Hne. induction o as [|[k2 v2] o IH]; cbn [Obj.insert_index].
  - cbn. now rewrite Hne.
  - destruct (Obj.array_index k2) as [j|]; [destruct (j <? i)|]; cbn [Obj.get];
      rewrite ?Hne, ?IH; reflexivity.
Qed.

Lemma get_app (k : string) (o1 o2 : obj) :
  Obj.get k (o1 ++ o2)%list
  = if Obj.has_own k o1 then Obj.get k o1 else Obj.get k o2.
Proof.
  induction o1 as [|[k' v'] o1 IH]; [reflexivity|].
  cbn [app Obj.get Obj.has_own]. now destruct (String.eqb k k').
Qed.

Lemma get_set_same (k : string) (v : value) (o : obj) :
  String.eqb k "__proto__" = false -> Obj.get k (Obj.set k v o) = v.
Proof.
  intros Hp. unfold Obj.set. rewrite Hp.
  destruct (Obj.has_own k o) eqn:Hown.
  - now apply get_replace_same.
  - destruct (Obj.array_index k).
    + now apply get_insert_index_same.
    + rewrite get_app, Hown. cbn. now rewrite String.eqb_refl.
Qed.

Lemma get_set_other (k k' : string) (v : value) (o : obj) :
  String.eqb k k' = false -> Obj.get k (Obj.set k' v o) = Obj.get k o.
Proof.
  intros Hne. unfold Obj.set.
  destruct (String.eqb k' "__proto__"); [reflexivity|].
  destruct (Obj.has_own k' o).
  - now apply get_replace_other.
  - destruct (Obj.array_index k').
    + now apply get_insert_index_other.
    + rewrite get_app. destruct (Obj.has_own k o) eqn:Hown; [reflexivity|].
      cbn. rewrite Hne. symmetry. now apply get_absent.
Qed.

Lemma has_own_keys (k : string) (o : obj) :
  Obj.has_own k o = true <-> In k (Obj.keys o).
Proof.
  induction o as [|[k' v'] o IH]; cbn [Obj.has_own Obj.keys map In fst].
  - split; [discriminate | contradiction].
  - rewrite orb_true_iff, IH, String.eqb_eq. intuition congruence.
Qed.

Lemma keys_replace (k : string) (v : value) (o : obj) :
  Obj.keys (Obj.replace k v o) = Obj.keys o.
Proof.
  induction o as [|[k' v'] o IH]; [reflexivity|]. cbn [Obj.replace].
  unfold Obj.keys in *. destruct (String.eqb k k'); cbn [map fst]; congruence.
Qed.

Lemma keys_insert_index (i : Z) (k key : string) (v : value) (o : obj) :
  In key (Obj.keys (Obj.insert_index i k v o))
  <-> key = k \/ In key (Obj.keys o).
Proof.
  induction o as [|[k' v'] o IH]; cbn [Obj.insert_index].
  - cbn. intuition congruence.
  - unfold Obj.keys in *.
    destruct (Obj.array_index k') as [j|]; [destruct (j <? i)|];
      cbn [map fst In]; rewrite ?IH; intuition congruence.
Qed.

Lemma keys_set (k key : string) (v : value) (o : obj) :
  In key (Obj.keys (Obj.set k v o)) ->
  key = k \/ In key (Obj.keys o).
Proof.
  unfold Obj.set. destruct (String.eqb k "__proto__"); [auto|].
  destruct (Obj.has_own k o).
  - rewrite keys_replace. auto.
  - destruct (Obj.array_index k).
    + now rewrite keys_insert_index.
    + unfold Obj.keys. rewrite map_app, in_app_iff. cbn. intuition congruence.
Qed.

Lemma keys_set_keeps (k key : string) (v : value) (o : obj) :
  In key (Obj.keys o) -> In key (Obj.keys (Obj.set k v o)).
Proof.
  intros H. unfold Obj.set. destruct (String.eqb k "__proto__"); [assumption|].
  destruct (Obj.has_own k o).
  - now rewrite keys_replace.
  - destruct (Obj.array_index k).
    + rewrite keys_insert_index. now right.
    + unfold Obj.keys. rewrite map_app, in_app_iff. now left.
Qed.

Lemma keys_set_new (k : string) (v : value) (o : obj) :
  String.eqb k "__proto__" = false -> In k (Obj.keys (Obj.set k v o)).
Proof.
  intros Hp. unfold Obj.set. rewrite Hp.
  destruct (Obj.has_own k o) eqn:Hown.
  - rewrite keys_replace. now apply has_own_keys.
  - destruct (Obj.array_index k).
    + rewrite keys_insert_index. now left.
    + unfold Obj.keys. rewrite map_app, in_app_iff. right. now left.
Qed.

(** ** Copying properties in a loop *)

Section CopyLoop.

Variable selected : string -> bool.
Variable target : string -> string.
Variable source : string -> value.

Lemma get_copy_untouched (K : string) (ks : list string) :
  (forall key, In key ks -> selected key = true ->
               String.eqb K (target key) = false) ->
  forall o,
    Obj.get K (fold_left (copy_step selected target source) ks o)
    = Obj.get K o.
Proof.
  induction ks as [|key ks IH]; intros H o; [reflexivity|].
  cbn [fold_left]. rewrite IH by (intros; apply H; [now right | assumption]).
  unfold copy_step. destruct (selected key) eqn:E; [|reflexivity].
  apply get_set_other. apply H; [now left | assumption].
Qed.

Lemma get_copy_written (K : string) (V : value) (ks : list string) :
  String.eqb K "__proto__" = false ->
  (forall key, In key ks -> selected key = true -> target key = K ->
               source key = V) ->
  (exists key, In key ks /\ selected key = true /\ target key = K) ->
  forall o, Obj.get K (fold_left (copy_step selected target source) ks o) = V.
Proof.
  intros Hp. induction ks as [|x ks IH] using rev_ind; intros Hsrc Hex o.
  - destruct Hex as (key & [] & _).
  - rewrite fold_left_app. cbn [fold_left]. unfold copy_step at 1.
    destruct (selected x) eqn:Ex;
      [destruct (String.eqb_spec K (target x)) as [HK|HK]|].
    + rewrite HK. rewrite get_set_same by (now rewrite <- HK).
      apply Hsrc; [apply in_or_app; right; now left | assumption | congruence].
    + rewrite get_set_other by (now apply String.eqb_neq).
      apply IH.
      * intros key Hin. apply Hsrc. apply in_or_app. now left.
      * destruct Hex as (key & Hin & Hsel & Ht). exists key.
        apply in_app_or in Hin.
        destruct Hin as [Hin|[<-|[]]]; [auto|congruence].
    + apply IH.
      * intros key Hin. apply Hsrc. apply in_or_app. now left.
      * destruct Hex as (key & Hin & Hsel & Ht). exists key.
        apply in_app_or in Hin.
        destruct Hin as [Hin|[<-|[]]]; [auto|congruence].
Qed.

Lemma keys_copy (key : string) (ks : list string) :
  forall o,
    In key (Obj.keys (fold_left (copy_step selected target source) ks o)) ->
            In key (Obj.keys o)
            \/ exists k, In k ks /\ selected k = true /\ target k = key.
Proof.
  induction ks as [|x ks IH]; intros o H; [now left|].
  cbn [fold_left] in H. apply IH in H. destruct H as [H|(k & Hin & Hs & Ht)].
  - unfold copy_step in H. destruct (selected x) eqn:Ex; [|now left].
    apply keys_set in H. destruct H as [->|H]; [|now left].
    right. exists x. repeat split; [now left | assumption].
  - right. exists k. repeat split; [now right | assumption | assumption].
Qed.

Lemma keys_copy_keeps (key : string) (ks : list string) :
  forall o,
    In key (Obj.keys o) ->
    In key (Obj.keys (fold_left (copy_step selected target source) ks o)).
Proof.
  induction ks as [|x ks IH]; intros o H; [assumption|].
  cbn [fold_left]. apply IH. unfold copy_step.
  destruct (selected x); [now apply keys_set_keeps | assumption].
Qed.

Lemma keys_copy_new (k : string) (ks : list string) :
  In k ks -> selected k = true -> String.eqb (target k) "__proto__" = false ->
  forall o,
    In (target k)
      (Obj.keys (fold_left (copy_step selected target source) ks o)).
Proof.
  induction ks as [|x ks IH]; intros Hin Hs Hp o; [contradiction|].
  cbn [fold_left]. destruct Hin as [->|Hin].
  - apply keys_copy_keeps. unfold copy_step. rewrite Hs.
    now apply keys_set_new.
  - now apply IH.
Qed.

End CopyLoop.

Ltac read_written :=
  repeat first [ rewrite get_set_same by reflexivity
               | rewrite get_set_other by reflexivity ];
  cbn [Obj.get].

(** ** Validation in [mapIcalObjectToEvent] *)

Lemma missing_or_not_string_iff (k : string) (r : obj) :
  missing_or_not_string k r <-> negb (Val.is_string (Obj.get k r)) = true.
Proof.
  unfold missing_or_not_string. rewrite negb_true_iff. split; [|auto].
  intros [H|H]; [|assumption]. now rewrite get_absent.
Qed.

Lemma present_but_not_string_iff (k : string) (r : obj) :
  present_but_not_string k r
  <-> Val.is_defined (Obj.get k r) && negb (Val.is_string (Obj.get k r)) = true.
Proof.
  unfold present_but_not_string. now rewrite andb_true_iff, negb_true_iff.
Qed.

Lemma invalid_ical_object_spec (r : obj) :
  invalid_ical_object r = true <-> InvalidRecord r.
Proof.
  unfold invalid_ical_object, InvalidRecord.
  rewrite !orb_true_iff, !missing_or_not_string_iff,
    !present_but_not_string_iff.
  tauto.
Qed.

Lemma mapIcalObjectToEvent_valid (LocalTZA : Z -> bool -> Z) (icalObj : obj) :
  invalid_ical_object icalObj = false ->
  mapIcalObjectToEvent LocalTZA icalObj = Return (event_of LocalTZA icalObj).
Proof. intros Hvalid. unfold mapIcalObjectToEvent. now rewrite Hvalid. Qed.

Lemma named_fields_get (LocalTZA : Z -> bool -> Z) (icalObj : obj) :
  let event := named_fields LocalTZA icalObj in
  Obj.get "id" event = Obj.get "UID" icalObj
  /\ Obj.get "summary" event = Obj.get "SUMMARY" icalObj
  /\ Obj.get "start" event
     = date_value
         (parseIcalDateTime LocalTZA (as_string (Obj.get "DTSTART" icalObj)))
  /\ Obj.get "end" event
     = date_value
         (parseIcalDateTime LocalTZA (as_string (Obj.get "DTEND" icalObj)))
  /\ Obj.get "location" event
     = (if Val.truthy (Obj.get "LOCATION" icalObj)
        then Obj.get "LOCATION" icalObj else VUndefined)
  /\ Obj.get "description" event
     = (if Val.truthy (Obj.get "DESCRIPTION" icalObj)
        then Obj.get "DESCRIPTION" icalObj else VUndefined).
Proof.
  unfold named_fields.
  destruct (Val.truthy (Obj.get "LOCATION" icalObj));
    destruct (Val.truthy (Obj.get "DESCRIPTION" icalObj));
    cbv zeta; repeat split; read_written; reflexivity.
Qed.

(** C7 (as amended). [mapIcalObjectToEvent] raises its error exactly for the
    records the specification calls invalid; for every other record it
    returns an Event whose [id] is the record's [UID] when the record has no
    property named [id], and whose [summary] is the record's [SUMMARY] when
    the record has no property named [summary]. *)
Theorem mapIcalObjectToEvent_raises_iff_invalid
  (LocalTZA : Z -> bool -> Z) (icalObj : obj) :
  (mapIcalObjectToEvent LocalTZA icalObj = Throw (Error "Invalid iCal object")
   <-> InvalidRecord icalObj)
  /\ (~ InvalidRecord icalObj ->
      exists event,
        mapIcalObjectToEvent LocalTZA icalObj = Return event
        /\ (Obj.has_own "id" icalObj = false ->
            Obj.get "id" event = Obj.get "UID" icalObj)
        /\ (Obj.has_own "summary" icalObj = false ->
            Obj.get "summary" event = Obj.get "SUMMARY" icalObj)).
Proof.
  rewrite <- invalid_ical_object_spec. split.
  - unfold mapIcalObjectToEvent.
    destruct (invalid_ical_object icalObj); split; congruence.
  - intros H. apply not_true_is_false in H.
    rewrite mapIcalObjectToEvent_valid by assumption.
    eexists. split; [reflexivity|].
    destruct (named_fields_get LocalTZA icalObj) as (Gid & Gsum & _).
    unfold event_of.
    split; intros Hown; rewrite get_copy_untouched; try assumption;
      intros key Hin _; apply String.eqb_neq; intros <-;
      apply has_own_keys in Hin; congruence.
Qed.

(** ** The Event round trip *)

Lemma includes_false (names : list string) (x k : string) :
  includes names x = false -> In k names -> String.eqb k x = false.
Proof.
  unfold includes. intros H Hin. apply String.eqb_neq. intros ->.
  assert (existsb (String.eqb x) names = true); [|congruence].
  apply existsb_exists. exists x. split; [assumption | apply String.eqb_refl].
Qed.

Lemma distinct_map_inj (f : string -> string) (l : list string) :
  distinct (map f l) = true ->
  forall a b, In a l -> In b l -> f a = f b -> a = b.
Proof.
  induction l as [|x l IH]; [contradiction|]. cbn [map distinct].
  rewrite andb_true_iff, negb_true_iff. intros [Hx Hl] a b Ha Hb Hab.
  assert (Hfresh : forall c, In c l -> f c <> f x).
  { intros c Hc E. apply (includes_false _ _ (f c)) in Hx.
    - rewrite E, String.eqb_refl in Hx. discriminate.
    - now apply in_map. }
  destruct Ha as [<-|Ha], Hb as [<-|Hb]; auto.
  - symmetry in Hab. now apply Hfresh in Hab.
  - now apply Hfresh in Hab.
Qed.

Lemma named_properties_keys (event : obj) (dtstart dtend key : string) :
  In key (Obj.keys (named_properties event dtstart dtend)) ->
  includes record_names key = true.
Proof.
  unfold named_properties.
  destruct (Val.truthy (Obj.get "id" event));
    destruct (Val.truthy (Obj.get "location" event));
    destruct (Val.truthy (Obj.get "description" event));
    cbn; intros H; repeat (destruct H as [<-|H]; [reflexivity|]);
    contradiction.
Qed.

Lemma named_properties_get (event : obj) (dtstart dtend : string) :
  let r := named_properties event dtstart dtend in
  Obj.get "UID" r
  = (if Val.truthy (Obj.get "id" event) then Obj.get "id" event
     else VUndefined)
  /\ Obj.get "SUMMARY" r = Obj.get "summary" event
  /\ Obj.get "DTSTART" r = VStr dtstart
  /\ Obj.get "DTEND" r = VStr dtend
  /\ Obj.get "LOCATION" r
     = (if Val.truthy (Obj.get "location" event)
        then Obj.get "location" event else VUndefined)
  /\ Obj.get "DESCRIPTION" r
     = (if Val.truthy (Obj.get "description" event)
        then Obj.get "description" event else VUndefined).
Proof.
  unfold named_properties.
  destruct (Val.truthy (Obj.get "id" event));
    destruct (Val.truthy (Obj.get "location" event));
    destruct (Val.truthy (Obj.get "description" event));
    cbv zeta; repeat split; read_written; reflexivity.
Qed.

Section RecordOfEvent.

Variable LocalTZA : Z -> bool -> Z.
Variable toUpperCase : string -> string.

Lemma mapEventToIcalObject_typed (event : obj) (ds de : Date) :
  Obj.get "start" event = VDate ds ->
  Obj.get "end" event = VDate de ->
  mapEventToIcalObject LocalTZA toUpperCase event
  = Return
      (record_of toUpperCase event (formatToIcalDateTime LocalTZA ds false)
         (formatToIcalDateTime LocalTZA de false)).
Proof.
  intros Hs He. unfold mapEventToIcalObject. now rewrite Hs, He.
Qed.

Lemma custom_keys_In (event : obj) (key : string) :
  In key (custom_keys event)
  <-> In key (Obj.keys event) /\ is_custom key = true.
Proof. unfold custom_keys. apply filter_In. Qed.

Variable event : obj.
Hypothesis Hreserved :
  forallb (fun key => negb (includes reserved_names (toUpperCase key)))
    (custom_keys event) = true.
Hypothesis Hdistinct : distinct (map toUpperCase (custom_keys event)) = true.

Lemma custom_not_reserved (key K : string) :
  In key (Obj.keys event) -> is_custom key = true -> In K reserved_names ->
  String.eqb K (toUpperCase key) = false.
Proof.
  intros Hin Hc HK. rewrite forallb_forall in Hreserved.
  assert (H : In key (custom_keys event)) by (now apply custom_keys_In).
  apply Hreserved in H. apply negb_true_iff in H.
  now apply (includes_false reserved_names).
Qed.

Variables dtstart dtend : string.

Lemma record_named (K : string) :
  In K record_names ->
  Obj.get K (record_of toUpperCase event dtstart dtend)
  = Obj.get K (named_properties event dtstart dtend).
Proof.
  intros HK. unfold record_of. apply get_copy_untouched.
  intros key Hin Hc. apply custom_not_reserved; try assumption.
  unfold reserved_names. apply in_or_app. now left.
Qed.

Lemma record_custom (key : string) :
  In key (custom_keys event) ->
  Obj.get (toUpperCase key) (record_of toUpperCase event dtstart dtend)
  = Obj.get key event
  /\ In (toUpperCase key)
       (Obj.keys (record_of toUpperCase event dtstart dtend))
  /\ includes record_names (toUpperCase key) = false.
Proof.
  intros Hkey. pose proof Hkey as Hkey'. apply custom_keys_In in Hkey'.
  destruct Hkey' as [Hin Hc].
  assert (Hproto : String.eqb (toUpperCase key) "__proto__" = false).
  { rewrite String.eqb_sym. apply custom_not_reserved; try assumption.
    unfold reserved_names. rewrite !in_app_iff. right. right. now left. }
  split; [|split].
  - unfold record_of. apply get_copy_written; [assumption | |].
    + intros k Hk Hck E. f_equal.
      apply (distinct_map_inj toUpperCase (custom_keys event));
        try assumption. now apply custom_keys_In.
    + now exists key.
  - unfold record_of. now apply keys_copy_new.
  - rewrite forallb_forall in Hreserved. apply Hreserved in Hkey.
    apply negb_true_iff in Hkey. unfold reserved_names, includes in *.
    rewrite existsb_app in Hkey. now apply orb_false_elim in Hkey.
Qed.

Lemma record_keys (K : string) :
  In K (Obj.keys (record_of toUpperCase event dtstart dtend)) ->
  includes record_names K = true
  \/ exists key, In key (custom_keys event) /\ toUpperCase key = K.
Proof.
  intros H. unfold record_of in H. apply keys_copy in H.
  destruct H as [H|(key & Hin & Hc & Ht)].
  - left. now apply named_properties_keys in H.
  - right. exists key. split; [now apply custom_keys_In | assumption].
Qed.

(** The named fields of the Event read back from that record are those
    set before the loop of [mapIcalObjectToEvent]. *)
Lemma event_of_record (K : string) :
  In K event_names ->
  Obj.get K (event_of LocalTZA (record_of toUpperCase event dtstart dtend))
  = Obj.get K
      (named_fields LocalTZA (record_of toUpperCase event dtstart dtend)).
Proof.
  intros HK. unfold event_of. apply get_copy_untouched. intros k Hk Hsel.
  apply record_keys in Hk. destruct Hk as [Hk|(key & Hkey & <-)].
  - rewrite Hk in Hsel. discriminate.
  - apply custom_keys_In in Hkey. destruct Hkey as [Hin Hc].
    apply custom_not_reserved; try assumption.
    unfold reserved_names. rewrite !in_app_iff. right. now left.
Qed.

Lemma event_of_record_custom (key : string) :
  In key (custom_keys event) ->
  Obj.get (toUpperCase key)
    (event_of LocalTZA (record_of toUpperCase event dtstart dtend))
  = Obj.get key event.
Proof.
  intros Hkey. destruct (record_custom key Hkey) as (Hget & Hin & Hrec).
  pose proof Hkey as Hkey'. apply custom_keys_In in Hkey'.
  destruct Hkey' as [Hin' Hc].
  unfold event_of. apply get_copy_written.
  - rewrite String.eqb_sym. apply custom_not_reserved; try assumption.
    unfold reserved_names. rewrite !in_app_iff. right. right. now left.
  - intros k _ _ ->. assumption.
  - exists (toUpperCase key). now rewrite Hrec.
Qed.

End RecordOfEvent.

Lemma four_digit_year_whole_second_inv (v : value) :
  four_digit_year_whole_second v = true ->
  exists t, v = VDate (mkDate (Int t)) /\ Time.msFromTime t = 0
            /\ 1000 <= Time.YearFromTime t <= 9999.
Proof.
  destruct v as [| | | | |[[|t]]]; try (cbn; discriminate).
  cbn [four_digit_year_whole_second]. rewrite !andb_true_iff.
  intros [[H1 H2] H3]. exists t. apply Z.eqb_eq in H1.
  split; [reflexivity | split; [assumption | lia]].
Qed.

(** C3 (as amended). An Event with a non-empty [id], with valid [start] and
    [end] dates of whole seconds and four-digit UTC years, and with custom
    field names whose upper-cased forms are pairwise distinct and are no
    reserved names, is given back by the round trip: same [id], [summary],
    [start] and [end], same [location] and [description] when non-empty, and
    every custom field under its upper-cased name. *)
Theorem event_roundtrip_recovers
  (LocalTZA : Z -> bool -> Z) (toUpperCase : string -> string) (event : obj) :
  portable_event toUpperCase event = true ->
  exists event' : obj,
    event_roundtrip LocalTZA toUpperCase event = Return event'
    /\ Obj.get "id" event' = Obj.get "id" event
    /\ Obj.get "summary" event' = Obj.get "summary" event
    /\ Obj.get "start" event' = Obj.get "start" event
    /\ Obj.get "end" event' = Obj.get "end" event
    /\ (Val.truthy (Obj.get "location" event) = true ->
        Obj.get "location" event' = Obj.get "location" event)
    /\ (Val.truthy (Obj.get "description" event) = true ->
        Obj.get "description" event' = Obj.get "description" event)
    /\ (forall key : string,
           In key (custom_keys event) ->
           Obj.get (toUpperCase key) event' = Obj.get key event).
Proof.
  unfold portable_event, is_Event. rewrite !andb_true_iff.
  intros [[[[[[[[[[Tid Tsum] _] _] Tloc] Tdesc] Hid] Hstart] Hend] Hres] Hdis].
  destruct (four_digit_year_whole_second_inv _ Hstart) as (ts & Es & Hms & Hys).
  destruct (four_digit_year_whole_second_inv _ Hend) as (te & Ee & Hme & Hye).
  unfold event_roundtrip.
  rewrite (mapEventToIcalObject_typed _ _ _ _ _ Es Ee).
  set (dtstart := formatToIcalDateTime LocalTZA (mkDate (Int ts)) false).
  set (dtend := formatToIcalDateTime LocalTZA (mkDate (Int te)) false).
  assert (Rs : parseIcalDateTime LocalTZA (Some dtstart)
               = Some (mkDate (Int ts)))
    by (now apply parseIcalDateTime_formatToIcalDateTime).
  assert (Re : parseIcalDateTime LocalTZA (Some dtend) = Some (mkDate (Int te)))
    by (now apply parseIcalDateTime_formatToIcalDateTime).
  clearbody dtstart dtend.
  set (icalObj := record_of toUpperCase event dtstart dtend).
  destruct (named_properties_get event dtstart dtend)
    as (Guid & Gsum & Gstart & Gend & Gloc & Gdesc).
  rewrite <- (record_named toUpperCase event Hres dtstart dtend "UID")
    in Guid by (cbn; tauto).
  rewrite <- (record_named toUpperCase event Hres dtstart dtend "SUMMARY")
    in Gsum by (cbn; tauto).
  rewrite <- (record_named toUpperCase event Hres dtstart dtend "DTSTART")
    in Gstart by (cbn; tauto).
  rewrite <- (record_named toUpperCase event Hres dtstart dtend "DTEND")
    in Gend by (cbn; tauto).
  rewrite <- (record_named toUpperCase event Hres dtstart dtend "LOCATION")
    in Gloc by (cbn; tauto).
  rewrite <- (record_named toUpperCase event Hres dtstart dtend "DESCRIPTION")
    in Gdesc by (cbn; tauto).
  fold icalObj in Guid, Gsum, Gstart, Gend, Gloc, Gdesc.
  rewrite Hid in Guid.
  assert (Hvalid : invalid_ical_object icalObj = false).
  { unfold invalid_ical_object. rewrite Guid, Gsum, Gstart, Gend, Gloc, Gdesc.
    destruct (Obj.get "id" event); try discriminate.
    destruct (Obj.get "summary" event); try discriminate.
    destruct (Obj.get "location" event); try discriminate;
      destruct (Obj.get "description" event); try discriminate;
      cbn [Val.truthy Val.is_string Val.is_defined];
      repeat match goal with
             | |- context [Str.truthy ?s] => destruct (Str.truthy s)
             end;
      reflexivity. }
  rewrite mapIcalObjectToEvent_valid by assumption.
  eexists. split; [reflexivity|].
  assert (Hnamed :=
            event_of_record LocalTZA toUpperCase event Hres dtstart dtend).
  assert (Hcustom :=
            event_of_record_custom LocalTZA toUpperCase event Hres Hdis
              dtstart dtend).
  fold icalObj in Hnamed, Hcustom.
  destruct (named_fields_get LocalTZA icalObj)
    as (Fid & Fsum & Fstart & Fend & Floc & Fdesc).
  rewrite Guid in Fid. rewrite Gsum in Fsum.
  rewrite Gstart in Fstart. cbn [as_string] in Fstart.
  rewrite Rs in Fstart. cbn [date_value] in Fstart. rewrite <- Es in Fstart.
  rewrite Gend in Fend. cbn [as_string] in Fend.
  rewrite Re in Fend. cbn [date_value] in Fend. rewrite <- Ee in Fend.
  rewrite Gloc in Floc. rewrite Gdesc in Fdesc.
  repeat split.
  - now rewrite Hnamed by (cbn; tauto).
  - now rewrite Hnamed by (cbn; tauto).
  - now rewrite Hnamed by (cbn; tauto).
  - now rewrite Hnamed by (cbn; tauto).
  - intros Hl. rewrite Hl in Floc. cbn [Val.truthy] in Floc.
    rewrite Hl in Floc. now rewrite Hnamed by (cbn; tauto).
  - intros Hd. rewrite Hd in Fdesc. cbn [Val.truthy] in Fdesc.
    rewrite Hd in Fdesc. now rewrite Hnamed by (cbn; tauto).
  - intros key Hkey. now apply Hcustom.
Qed.

(** ** The claims on concrete inputs *)

(** The unterminated block of the test suite. *)
Lemma icalToWebDav_flushes_open_block_witness :
  Str.split Str.LF incomplete_text
  = ([] ++ "BEGIN:VEVENT" :: ["SUMMARY:Incomplete"])%list
  /\ is_begin "BEGIN:VEVENT" = true
  /\ icalToWebDav incomplete_text baseUrl_sample
     = Str.join NL
         (icalToWebDav_blocks []
            ++ [Str.join NL ["BEGIN:VEVENT"; "SUMMARY:Incomplete"]]).
Proof.
  split; [reflexivity | split; [reflexivity|]].
  apply (icalToWebDav_flushes_open_block incomplete_text baseUrl_sample []
           "BEGIN:VEVENT" ["SUMMARY:Incomplete"]).
  - reflexivity.
  - reflexivity.
  - repeat constructor.
Defined.

(** A value that ends with a space comes back without it. *)
Lemma parseIcal_icalToString_padded_value :
  parseIcal (icalToString date_text padded_value_records)
  <> padded_value_records.
Proof. vm_compute. discriminate. Qed.

(** The two records of the test suite survive the round trip. *)
Lemma parseIcal_icalToString_roundtrip_witness :
  multipleEventsObjects <> []
  /\ forallb plain_record multipleEventsObjects = true
  /\ parseIcal (icalToString date_text multipleEventsObjects)
     = multipleEventsObjects.
Proof.
  split; [discriminate | split; [reflexivity|]].
  apply (parseIcal_icalToString_roundtrip date_text multipleEventsObjects).
  - discriminate.
  - reflexivity.
Defined.

(** The outer record of a nested [BEGIN:VEVENT] does not reach the
    output. *)
Lemma parseIcal_nested_begin_loses_outer :
  parseIcal nested_text = [[("SUMMARY", VStr "Inner Event")]]
  /\ ~ In [("SUMMARY", VStr "Outer Event")] (parseIcal nested_text).
Proof.
  split; [reflexivity|]. vm_compute. intros [H|[]]. discriminate.
Qed.

(** The same text, through the theorem. *)
Lemma parseIcal_nested_begin_drops_open_record_witness :
  snd (parseIcal_state ["BEGIN:VEVENT"; "SUMMARY:Outer Event"])
  = Some [("SUMMARY", VStr "Outer Event")]
  /\ parseIcal_state
       (["BEGIN:VEVENT"; "SUMMARY:Outer Event"] ++ ["BEGIN:VEVENT"])
     = (parseIcal_lines ["BEGIN:VEVENT"; "SUMMARY:Outer Event"], Some [])
  /\ parseIcal nested_text
     = (parseIcal_lines ["BEGIN:VEVENT"; "SUMMARY:Outer Event"]
        ++ parseIcal_lines
             ["BEGIN:VEVENT"; "SUMMARY:Inner Event"; "END:VEVENT"])%list.
Proof.
  split; [reflexivity|].
  apply (parseIcal_nested_begin_drops_open_record nested_text
           ["BEGIN:VEVENT"; "SUMMARY:Outer Event"] "BEGIN:VEVENT"
           ["SUMMARY:Inner Event"; "END:VEVENT"]
           [("SUMMARY", VStr "Outer Event")]).
  - reflexivity.
  - reflexivity.
  - reflexivity.
Defined.

(** A closed record followed by an open one: only the first is returned. *)
Lemma parseIcal_returns_closed_records_only_witness :
  parseIcal closed_then_open_text
  = parseIcal_lines ["BEGIN:VEVENT"; "SUMMARY:Event 1"; "END:VEVENT"].
Proof.
  apply (proj1 (parseIcal_returns_closed_records_only closed_then_open_text)
           ["BEGIN:VEVENT"; "SUMMARY:Event 1"; "END:VEVENT"]
           "BEGIN:VEVENT" ["SUMMARY:Incomplete"]).
  - reflexivity.
  - reflexivity.
  - repeat constructor.
Defined.

(** C5. A property line whose key is made of white space is recorded, under
    the empty key. *)
Theorem parseIcal_records_blank_key :
  parseIcal blank_key_text = [[(EmptyString, VStr "VALUEONLY")]].
Proof. reflexivity. Qed.

(** C6. The year of a date before the year 1000 is written with fewer than
    four digits, in the UTC rendering and in the local one. *)
Theorem formatToIcalDateTime_year_999 :
  formatToIcalDateTime utc_zone date_year_999 false = "9990101T000000Z"
  /\ formatToIcalDateTime utc_zone date_year_999 true = "9990101T000000".
Proof. split; reflexivity. Qed.

(** A valid record with a property named [id]: the Event gets that value,
    not the [UID]. *)
Lemma mapIcalObjectToEvent_id_overwritten :
  ~ InvalidRecord record_with_id
  /\ mapIcalObjectToEvent utc_zone record_with_id
     = Return [("id", VStr "other"); ("summary", VStr "Test Event");
               ("start", VDate date_2023_10h); ("end", VDate date_2023_11h)]
  /\ Obj.get "UID" record_with_id = VStr "event1@example.com".
Proof.
  split; [|split; reflexivity].
  rewrite <- invalid_ical_object_spec. discriminate.
Qed.

(** The record of the test suite is valid and mapped. *)
Lemma mapIcalObjectToEvent_raises_iff_invalid_witness :
  exists event,
    mapIcalObjectToEvent utc_zone singleEventObject = Return event
    /\ (Obj.has_own "id" singleEventObject = false ->
        Obj.get "id" event = Obj.get "UID" singleEventObject)
    /\ (Obj.has_own "summary" singleEventObject = false ->
        Obj.get "summary" event = Obj.get "SUMMARY" singleEventObject).
Proof.
  apply (proj2 (mapIcalObjectToEvent_raises_iff_invalid utc_zone
                  singleEventObject)).
  rewrite <- invalid_ical_object_spec. discriminate.
Defined.

(** An Event without [id] does not survive the round trip. *)
Lemma event_roundtrip_without_id :
  is_Event minimal_event = true
  /\ event_roundtrip utc_zone upper_ascii minimal_event
     = Throw (Error "Invalid iCal object").
Proof. split; reflexivity. Qed.

(** An Event with every named field and a custom one. *)
Lemma event_roundtrip_recovers_witness :
  portable_event upper_ascii full_event = true
  /\ exists event' : obj,
      event_roundtrip utc_zone upper_ascii full_event = Return event'
      /\ Obj.get "id" event' = Obj.get "id" full_event
      /\ Obj.get "summary" event' = Obj.get "summary" full_event
      /\ Obj.get "start" event' = Obj.get "start" full_event
      /\ Obj.get "end" event' = Obj.get "end" full_event
      /\ (Val.truthy (Obj.get "location" full_event) = true ->
          Obj.get "location" event' = Obj.get "location" full_event)
      /\ (Val.truthy (Obj.get "description" full_event) = true ->
          Obj.get "description" event' = Obj.get "description" full_event)
      /\ (forall key : string,
             In key (custom_keys full_event) ->
             Obj.get (upper_ascii key) event' = Obj.get key full_event).
Proof.
  split; [reflexivity|].
  apply (event_roundtrip_recovers utc_zone upper_ascii full_event).
  reflexivity.
Defined.

(** * Further properties of the code *)

(** ** The block extractor *)

Lemma is_end_not_begin (line : string) :
  is_end line = true -> is_begin line = false.
Proof.
  destruct (is_begin line) eqn:E; [|reflexivity].
  apply is_begin_not_end in E. congruence.
Qed.

Lemma icalToWebDav_fold_prefix (lines : list string) :
  forall (out : list string) (cur : option string),
    fold_left icalToWebDav_step lines (out, cur)
    = ((out ++ fst (fold_left icalToWebDav_step lines ([], cur)))%list,
       snd (fold_left icalToWebDav_step lines ([], cur))).
Proof.
  induction lines as [|l lines IH]; intros out cur; cbn [fold_left].
  - cbn [fst snd]. now rewrite app_nil_r.
  - assert (Hstep : icalToWebDav_step (out, cur) l
                    = ((out ++ fst (icalToWebDav_step ([], cur) l))%list,
                       snd (icalToWebDav_step ([], cur) l))).
    { unfold icalToWebDav_step.
      destruct (Str.startsWith l "BEGIN:VEVENT");
        [|destruct (Str.startsWith l "END:VEVENT")];
        destruct (open_block cur); cbn [fst snd app];
        now rewrite ?app_nil_r. }
    rewrite Hstep. destruct (icalToWebDav_step ([], cur) l) as [o1 c1].
    cbn [fst snd]. rewrite IH, (IH o1). cbn [fst snd].
    now rewrite app_assoc.
Qed.

Lemma icalToWebDav_step_begin (b : string) :
  is_begin b = true ->
  icalToWebDav_step ([], None) b = ([], Some b).
Proof.
  intros Hb. unfold icalToWebDav_step, is_begin in *. now rewrite Hb.
Qed.

Lemma icalToWebDav_blocks_split (pre : list string) (b : string)
  (rest : list string) :
  is_begin b = true ->
  icalToWebDav_blocks (pre ++ b :: rest)
  = (icalToWebDav_blocks pre ++ icalToWebDav_blocks (b :: rest))%list.
Proof.
  intros Hb.
  replace (pre ++ b :: rest)%list with ((pre ++ [b]) ++ rest)%list
    by (now rewrite <- app_assoc).
  unfold icalToWebDav_blocks at 1. rewrite fold_left_app.
  rewrite icalToWebDav_blocks_begin by assumption.
  rewrite icalToWebDav_fold_prefix.
  generalize (icalToWebDav_blocks pre). intros B.
  unfold icalToWebDav_blocks. cbn [fold_left].
  rewrite icalToWebDav_step_begin by assumption.
  destruct (fold_left icalToWebDav_step rest ([], Some b)) as [o c].
  cbn [fst snd]. destruct (open_block c); now rewrite ?app_assoc.
Qed.

Lemma truthy_join_begin (b : string) (body : list string) :
  is_begin b = true -> Str.truthy (Str.join NL (b :: body)) = true.
Proof.
  intros Hb. destruct body; [now apply is_begin_truthy|].
  rewrite join_cons_cons. now apply truthy_app_l, is_begin_truthy.
Qed.

Lemma icalToWebDav_blocks_closed (b : string) (body : list string)
  (e : string) (rest : list string) :
  is_begin b = true ->
  Forall (fun l => is_begin l = false /\ is_end l = false) body ->
  is_end e = true ->
  icalToWebDav_blocks (b :: body ++ e :: rest)
  = Str.join NL (b :: body) :: icalToWebDav_blocks rest.
Proof.
  intros Hb Hbody He. unfold icalToWebDav_blocks at 1.
  cbn [fold_left]. rewrite fold_left_app. cbn [fold_left].
  rewrite icalToWebDav_step_begin by assumption.
  rewrite icalToWebDav_body by (auto using is_begin_truthy).
  replace (icalToWebDav_step ([], Some (Str.join NL (b :: body))) e)
    with ([Str.join NL (b :: body)], @None string).
  - rewrite icalToWebDav_fold_prefix. unfold icalToWebDav_blocks.
    destruct (fold_left icalToWebDav_step rest ([], None)) as [o c].
    cbn [fst snd]. now destruct (open_block c).
  - unfold icalToWebDav_step. pose proof (is_end_not_begin _ He) as Hn.
    unfold is_begin, is_end in *. rewrite Hn, He. cbn [open_block].
    now rewrite truthy_join_begin.
Qed.

Lemma icalToWebDav_blocks_nested (b : string) (body : list string)
  (b' : string) (rest : list string) :
  is_begin b = true ->
  Forall (fun l => is_begin l = false /\ is_end l = false) body ->
  is_begin b' = true ->
  icalToWebDav_blocks (b :: body ++ b' :: rest)
  = Str.join NL (b :: body) :: icalToWebDav_blocks (b' :: rest).
Proof.
  intros Hb Hbody Hb'.
  replace (b :: body ++ b' :: rest)%list with ((b :: body) ++ b' :: rest)%list
    by reflexivity.
  rewrite icalToWebDav_blocks_split by assumption. f_equal.
  unfold icalToWebDav_blocks. cbn [fold_left].
  rewrite icalToWebDav_step_begin by assumption.
  rewrite icalToWebDav_body by (auto using is_begin_truthy).
  cbn [open_block]. now rewrite truthy_join_begin.
Qed.

Lemma join_cons_nonempty (sep x : string) (t : list string) :
  t <> [] -> Str.join sep (x :: t) = x ++ sep ++ Str.join sep t.
Proof. destruct t; [contradiction | reflexivity]. Qed.

Lemma join_absorb_middle (xs : list string) (c l : string)
  (ys : list string) :
  Str.join NL (xs ++ (c ++ NL ++ l) :: ys) = Str.join NL (xs ++ c :: l :: ys).
Proof.
  induction xs as [|x xs IH]; cbn [app].
  - apply join_absorb.
  - rewrite !join_cons_nonempty by (now destruct xs). now rewrite IH.
Qed.

(** The text [icalToWebDav] returns from a given state of its loop. *)
Lemma icalToWebDav_text_from (lines : list string) :
  forall out : list string,
    (forall c : string,
        Str.truthy c = true ->
        Str.join NL
          (let '(webDavLines, currentLine) :=
             fold_left icalToWebDav_step lines (out, Some c) in
           match open_block currentLine with
           | Some cur => (webDavLines ++ [cur])%list
           | None => webDavLines
           end)
        = Str.join NL (out ++ c :: kept_lines true lines))
    /\ Str.join NL
         (let '(webDavLines, currentLine) :=
            fold_left icalToWebDav_step lines (out, None) in
          match open_block currentLine with
          | Some cur => (webDavLines ++ [cur])%list
          | None => webDavLines
          end)
       = Str.join NL (out ++ kept_lines false lines).
Proof.
  induction lines as [|l lines IH]; intros out.
  - split.
    + intros c Hc. cbn [fold_left open_block kept_lines]. now rewrite Hc.
    + cbn. now rewrite app_nil_r.
  - split.
    + intros c Hc. cbn [fold_left kept_lines]. unfold icalToWebDav_step at 2.
      fold (is_begin l). fold (is_end l). cbn [open_block]. rewrite Hc.
      destruct (is_begin l) eqn:Hb; [|destruct (is_end l) eqn:He].
      * destruct (IH (out ++ [c])%list) as [IHs _].
        rewrite IHs by (now apply is_begin_truthy).
        now rewrite <- app_assoc.
      * destruct (IH (out ++ [c])%list) as [_ IHn].
        rewrite IHn. now rewrite <- app_assoc.
      * destruct (IH out) as [IHs _].
        rewrite IHs by (now apply truthy_app_l).
        apply join_absorb_middle.
    + cbn [fold_left kept_lines]. unfold icalToWebDav_step at 2.
      fold (is_begin l). fold (is_end l). cbn [open_block].
      destruct (is_begin l) eqn:Hb; [|destruct (is_end l) eqn:He].
      * destruct (IH out) as [IHs _].
        now rewrite IHs by (now apply is_begin_truthy).
      * now destruct (IH out) as [_ IHn].
      * now destruct (IH out) as [_ IHn].
Qed.

Lemma icalToWebDav_kept (icalData baseUrl : string) :
  icalToWebDav icalData baseUrl
  = Str.join NL (kept_lines false (Str.split Str.LF icalData)).
Proof.
  unfold icalToWebDav, icalToWebDav_blocks.
  now destruct (icalToWebDav_text_from (Str.split Str.LF icalData) [])
    as [_ H].
Qed.

Lemma kept_lines_Forall (P : string -> Prop) (lines : list string) :
  Forall P lines -> forall open, Forall P (kept_lines open lines).
Proof.
  induction 1 as [|l lines Hl _ IH]; intros open; cbn [kept_lines].
  - constructor.
  - destruct (is_begin l); [|destruct (is_end l); [|destruct open]]; auto.
Qed.

Lemma kept_lines_no_end (lines : list string) :
  forall open, Forall (fun l => is_end l = false) (kept_lines open lines).
Proof.
  induction lines as [|l lines IH]; intros open; cbn [kept_lines].
  - constructor.
  - destruct (is_begin l) eqn:Hb; [|destruct (is_end l) eqn:He].
    + constructor; [now apply is_begin_not_end | apply IH].
    + apply IH.
    + destruct open; [constructor; [assumption | apply IH] | apply IH].
Qed.

Lemma kept_lines_idempotent (lines : list string) :
  kept_lines true (kept_lines true lines) = kept_lines true lines
  /\ kept_lines true (kept_lines false lines) = kept_lines false lines
  /\ kept_lines false (kept_lines false lines) = kept_lines false lines.
Proof.
  induction lines as [|l lines (IH1 & IH2 & IH3)]; [now cbn|].
  cbn [kept_lines].
  destruct (is_begin l) eqn:Hb; [|destruct (is_end l) eqn:He].
  - cbn [kept_lines]. rewrite Hb. now rewrite IH1.
  - auto.
  - cbn [kept_lines]. rewrite Hb, He. now rewrite IH1.
Qed.

Lemma kept_lines_no_begin (lines : list string) :
  Forall (fun l => is_begin l = false) lines -> kept_lines false lines = [].
Proof.
  induction 1 as [|l lines Hl _ IH]; [reflexivity|]. cbn [kept_lines].
  rewrite Hl. now destruct (is_end l).
Qed.

Lemma split_parts_without_separator (c : ascii) (s : string) :
  Forall (fun l => Str.contains c l = false) (Str.split c s).
Proof.
  induction s as [|x s IH]; [now repeat constructor|]. cbn [Str.split].
  destruct (Ascii.eqb_spec x c) as [->|Hx].
  - constructor; [reflexivity | assumption].
  - destruct (Str.split c s) as [|h t] eqn:E; [now apply split_not_nil in E|].
    inversion IH as [|? ? Hh Ht]; subst. constructor; [|assumption].
    rewrite contains_cons, Hh, orb_false_r. apply Ascii.eqb_neq. congruence.
Qed.

Lemma parseIcal_no_begin (lines : list string) :
  Forall (fun l => is_begin l = false) lines ->
  fold_left parseIcal_step lines ([], None) = ([], None).
Proof.
  induction 1 as [|l lines Hl _ IH]; [reflexivity|]. cbn [fold_left].
  replace (parseIcal_step ([], None) l) with (@nil obj, @None obj);
    [assumption|].
  unfold parseIcal_step, is_begin in *. rewrite Hl.
  now destruct (Str.startsWith l "END:VEVENT").
Qed.

(** The lines of the text [icalToWebDav] returns. *)
Lemma icalToWebDav_lines (icalData baseUrl : string) :
  let kept := kept_lines false (Str.split Str.LF icalData) in
  Str.split Str.LF (icalToWebDav icalData baseUrl)
  = match kept with [] => [EmptyString] | _ => kept end.
Proof.
  rewrite icalToWebDav_kept. cbv zeta.
  destruct (kept_lines false (Str.split Str.LF icalData)) as [|k ks] eqn:E;
    [reflexivity|].
  unfold NL. apply split_join; [discriminate|]. rewrite <- E.
  apply kept_lines_Forall, split_parts_without_separator.
Qed.

(** X1. A text without any line that starts with [BEGIN:VEVENT] (the empty
    text among them) gives the empty string with [icalToWebDav] and no
    record with [parseIcal]. *)
Theorem no_begin_line_no_output (icalData baseUrl : string) :
  Forall (fun l => is_begin l = false) (Str.split Str.LF icalData) ->
  icalToWebDav icalData baseUrl = EmptyString /\ parseIcal icalData = [].
Proof.
  intros H. split.
  - rewrite icalToWebDav_kept. now rewrite kept_lines_no_begin.
  - unfold parseIcal, parseIcal_lines. now rewrite parseIcal_no_begin.
Qed.

Lemma no_begin_line_no_output_witness :
  icalToWebDav no_event_text baseUrl_sample = EmptyString
  /\ parseIcal no_event_text = [].
Proof.
  apply (no_begin_line_no_output no_event_text baseUrl_sample).
  repeat constructor.
Defined.

(** X2. A block closed by [END:VEVENT] is emitted as its [BEGIN:VEVENT]
    line and its body lines, without the [END:VEVENT] line, between the
    blocks of the lines before it and those of the lines after it. *)
Theorem icalToWebDav_strips_end
  (icalData baseUrl : string) (pre : list string) (b : string)
  (body : list string) (e : string) (rest : list string) :
  Str.split Str.LF icalData = (pre ++ b :: body ++ e :: rest)%list ->
  is_begin b = true ->
  Forall (fun l => is_begin l = false /\ is_end l = false) body ->
  is_end e = true ->
  icalToWebDav icalData baseUrl
  = Str.join NL
      (icalToWebDav_blocks pre
         ++ Str.join NL (b :: body) :: icalToWebDav_blocks rest).
Proof.
  intros Hsplit Hb Hbody He. unfold icalToWebDav. rewrite Hsplit.
  rewrite icalToWebDav_blocks_split by assumption.
  now rewrite icalToWebDav_blocks_closed.
Qed.

Lemma icalToWebDav_strips_end_witness :
  icalToWebDav multipleEventsIcal baseUrl_sample
  = Str.join NL
      (icalToWebDav_blocks []
         ++ Str.join NL
              ["BEGIN:VEVENT"; "SUMMARY:Event 1"; "UID:event1@example.com"]
            :: icalToWebDav_blocks
                 ["BEGIN:VEVENT"; "SUMMARY:Event 2";
                  "UID:event2@example.com"; "END:VEVENT"]).
Proof.
  apply (icalToWebDav_strips_end multipleEventsIcal baseUrl_sample []
           "BEGIN:VEVENT" ["SUMMARY:Event 1"; "UID:event1@example.com"]
           "END:VEVENT").
  - reflexivity.
  - reflexivity.
  - repeat constructor.
  - reflexivity.
Defined.

(** X3. A [BEGIN:VEVENT] line read while a block is open makes
    [icalToWebDav] emit the open block as it stands and start a new one. *)
Theorem icalToWebDav_flushes_on_nested_begin
  (icalData baseUrl : string) (pre : list string) (b : string)
  (body : list string) (b' : string) (rest : list string) :
  Str.split Str.LF icalData = (pre ++ b :: body ++ b' :: rest)%list ->
  is_begin b = true ->
  Forall (fun l => is_begin l = false /\ is_end l = false) body ->
  is_begin b' = true ->
  icalToWebDav icalData baseUrl
  = Str.join NL
      (icalToWebDav_blocks pre
         ++ Str.join NL (b :: body) :: icalToWebDav_blocks (b' :: rest)).
Proof.
  intros Hsplit Hb Hbody Hb'. unfold icalToWebDav. rewrite Hsplit.
  rewrite icalToWebDav_blocks_split by assumption.
  now rewrite icalToWebDav_blocks_nested.
Qed.

Lemma icalToWebDav_flushes_on_nested_begin_witness :
  icalToWebDav nested_text baseUrl_sample
  = Str.join NL
      (icalToWebDav_blocks []
         ++ Str.join NL ["BEGIN:VEVENT"; "SUMMARY:Outer Event"]
            :: icalToWebDav_blocks
                 ["BEGIN:VEVENT"; "SUMMARY:Inner Event"; "END:VEVENT"]).
Proof.
  apply (icalToWebDav_flushes_on_nested_begin nested_text baseUrl_sample []
           "BEGIN:VEVENT" ["SUMMARY:Outer Event"] "BEGIN:VEVENT").
  - reflexivity.
  - reflexivity.
  - repeat constructor.
  - reflexivity.
Defined.

(** X4. The text [icalToWebDav] returns is made of the lines of the input
    that lie in a block, in their order: every [BEGIN:VEVENT] line, and
    every line that is no marker and follows one with no [END:VEVENT] line
    in between. *)
Theorem icalToWebDav_keeps_block_lines (icalData baseUrl : string) :
  icalToWebDav icalData baseUrl
  = Str.join NL (kept_lines false (Str.split Str.LF icalData)).
Proof. apply icalToWebDav_kept. Qed.

(** X5. [icalToWebDav] is idempotent: its output is left unchanged by a
    second pass. *)
Theorem icalToWebDav_idempotent (icalData baseUrl baseUrl' : string) :
  icalToWebDav (icalToWebDav icalData baseUrl) baseUrl'
  = icalToWebDav icalData baseUrl.
Proof.
  rewrite (icalToWebDav_kept (icalToWebDav icalData baseUrl)).
  rewrite icalToWebDav_lines. cbv zeta. rewrite icalToWebDav_kept.
  destruct (kept_lines false (Str.split Str.LF icalData)) as [|k ks] eqn:E;
    [reflexivity|].
  rewrite <- E.
  now destruct (kept_lines_idempotent (Str.split Str.LF icalData))
    as (_ & _ & ->).
Qed.

(** X6. The output of [icalToWebDav] holds no [END:VEVENT] line, so
    [parseIcal] finds no record in it, whatever the input. *)
Theorem parseIcal_of_icalToWebDav (icalData baseUrl : string) :
  parseIcal (icalToWebDav icalData baseUrl) = [].
Proof.
  unfold parseIcal. rewrite icalToWebDav_lines. cbv zeta.
  destruct (kept_lines false (Str.split Str.LF icalData)) as [|k ks] eqn:E;
    [reflexivity|].
  rewrite <- E. unfold parseIcal_lines.
  apply parseIcal_no_end, kept_lines_no_end.
Qed.

(** ** Array indices *)

Lemma digit_val_range (c : ascii) (d : Z) :
  Num.digit_val c = Some d -> 0 <= d <= 9.
Proof.
  unfold Num.digit_val.
  destruct (Z.leb_spec 48 (Z.of_N (N_of_ascii c)));
    destruct (Z.leb_spec (Z.of_N (N_of_ascii c)) 57); cbn [andb];
    intros [= <-]; lia.
Qed.

Lemma digit_val_inj (c c' : ascii) (d : Z) :
  Num.digit_val c = Some d -> Num.digit_val c' = Some d -> c = c'.
Proof.
  unfold Num.digit_val. intros H H'.
  destruct ((48 <=? Z.of_N (N_of_ascii c)) && (Z.of_N (N_of_ascii c) <=? 57));
    [|discriminate].
  destruct ((48 <=? Z.of_N (N_of_ascii c'))
            && (Z.of_N (N_of_ascii c') <=? 57)); [|discriminate].
  injection H as H. injection H' as H'.
  rewrite <- (ascii_N_embedding c), <- (ascii_N_embedding c'). f_equal. lia.
Qed.

Lemma all_digits_cons (c : ascii) (s : string) :
  Obj.all_digits (String c s) = true ->
  (exists d, Num.digit_val c = Some d) /\ Obj.all_digits s = true.
Proof.
  unfold Obj.all_digits. cbn [list_ascii_of_string forallb].
  intros H. apply andb_true_iff in H. destruct H as [Hc Hs]. split; [|exact Hs].
  destruct (Num.digit_val c) as [d|]; [now exists d | discriminate].
Qed.

Lemma digits_value_shift (s : string) :
  Obj.all_digits s = true ->
  forall a,
    digits_value s a
    = a * 10 ^ Z.of_nat (String.length s) + digits_value s 0
    /\ 0 <= digits_value s 0 < 10 ^ Z.of_nat (String.length s).
Proof.
  induction s as [|c s IH]; intros Hs a.
  - cbn. lia.
  - apply all_digits_cons in Hs. destruct Hs as [[d Hd] Hs].
    pose proof (digit_val_range _ _ Hd) as Hr.
    cbn [digits_value String.length]. rewrite Hd.
    destruct (IH Hs (10 * a + d)) as [E1 _].
    destruct (IH Hs (10 * 0 + d)) as [E2 B].
    rewrite E1, E2. rewrite Nat2Z.inj_succ, Z.pow_succ_r by lia.
    split; nia.
Qed.

Lemma read_digits_value (s : string) :
  Obj.all_digits s = true ->
  (forall a, Num.read_digits s (Some a) = Some (digits_value s a))
  /\ (s <> EmptyString -> Num.read_digits s None = Some (digits_value s 0)).
Proof.
  induction s as [|c s IH]; intros Hs.
  - split; [reflexivity | congruence].
  - apply all_digits_cons in Hs. destruct Hs as [[d Hd] Hs].
    destruct (IH Hs) as [IHa _].
    split; [intros a | intros _]; cbn [Num.read_digits digits_value];
      rewrite Hd, IHa; reflexivity.
Qed.

Lemma digits_value_inj (s : string) :
  forall s' : string,
    Obj.all_digits s = true -> Obj.all_digits s' = true ->
    String.length s = String.length s' ->
    digits_value s 0 = digits_value s' 0 -> s = s'.
Proof.
  induction s as [|c s IH]; intros [|c' s'] Hs Hs' Hl Hv; try discriminate.
  - reflexivity.
  - apply all_digits_cons in Hs. destruct Hs as [[d Hd] Hs].
    apply all_digits_cons in Hs'. destruct Hs' as [[d' Hd'] Hs'].
    injection Hl as Hl.
    cbn [digits_value] in Hv. rewrite Hd, Hd' in Hv.
    destruct (digits_value_shift s Hs (10 * 0 + d)) as [E B].
    destruct (digits_value_shift s' Hs' (10 * 0 + d')) as [E' B'].
    rewrite E, E', <- Hl in Hv. rewrite <- Hl in B'.
    pose proof (digit_val_range _ _ Hd). pose proof (digit_val_range _ _ Hd').
    assert (d = d') by nia. subst d'.
    f_equal; [now apply (digit_val_inj _ _ d) | apply IH; auto; lia].
Qed.

Lemma digits_value_lower (c : ascii) (s : string) :
  Obj.all_digits (String c s) = true ->
  Ascii.eqb c "0"%char = false ->
  10 ^ Z.of_nat (String.length s) <= digits_value (String c s) 0.
Proof.
  intros Hs Hc. apply all_digits_cons in Hs. destruct Hs as [[d Hd] Hs].
  cbn [digits_value]. rewrite Hd.
  destruct (digits_value_shift s Hs (10 * 0 + d)) as [E B]. rewrite E.
  assert (d <> 0).
  { intros ->. apply Ascii.eqb_neq in Hc. apply Hc.
    now apply (digit_val_inj _ _ 0). }
  pose proof (digit_val_range _ _ Hd). nia.
Qed.

Lemma array_index_inj (k k' : string) (i : Z) :
  Obj.array_index k = Some i -> Obj.array_index k' = Some i -> k = k'.
Proof.
  assert (Hcanon : forall k i,
             Obj.array_index k = Some i ->
             exists c rest,
               k = String c rest /\ Obj.all_digits k = true
               /\ (Ascii.eqb c "0"%char = false \/ rest = EmptyString)
               /\ digits_value k 0 = i).
  { clear. intros k i H. destruct k as [|c rest]; [discriminate|].
    unfold Obj.array_index in H.
    destruct (Obj.all_digits (String c rest)) eqn:Hd; [|discriminate].
    destruct (Nat.leb (String.length (String c rest)) 10); [|discriminate].
    destruct (negb (Ascii.eqb c "0") || String.eqb rest EmptyString)%bool
      eqn:Hz; [|discriminate].
    cbn [andb] in H.
    destruct (read_digits_value _ Hd) as [_ Hr].
    rewrite Hr in H by discriminate.
    destruct (digits_value (String c rest) 0 <=? 4294967294); [|discriminate].
    injection H as H. exists c, rest. repeat split; try assumption.
    apply orb_true_iff in Hz. destruct Hz as [Hz|Hz].
    - left. now apply negb_true_iff.
    - right. now apply String.eqb_eq. }
  intros H H'.
  destruct (Hcanon _ _ H) as (c & r & -> & Hd & Hz & Hv).
  destruct (Hcanon _ _ H') as (c' & r' & -> & Hd' & Hz' & Hv').
  assert (Hlen : forall c r c' r',
             Obj.all_digits (String c r) = true ->
             Obj.all_digits (String c' r') = true ->
             (Ascii.eqb c "0"%char = false \/ r = EmptyString) ->
             digits_value (String c r) 0 = digits_value (String c' r') 0 ->
             (String.length r <= String.length r')%nat).
  { clear. intros c r c' r' Hd Hd' Hz Hv.
    destruct Hz as [Hz| ->]; [|cbn; lia].
    pose proof (digits_value_lower _ _ Hd Hz) as Hlow.
    destruct (digits_value_shift _ Hd' 0) as [_ [_ Hup]].
    rewrite Hv in Hlow. cbn [String.length] in Hup.
    assert (Hlt : 10 ^ Z.of_nat (String.length r)
                  < 10 ^ Z.of_nat (S (String.length r'))) by lia.
    apply Z.pow_lt_mono_r_iff in Hlt; lia. }
  apply digits_value_inj; try assumption; [|congruence].
  cbn [String.length]. f_equal. apply Nat.le_antisymm.
  - apply (Hlen c r c' r'); auto. congruence.
  - apply (Hlen c' r' c r); auto. congruence.
Qed.

(** ** Objects stay well formed *)

Lemma forallb_replace (P : string * value -> bool) (k : string) (v : value)
  (o : obj) :
  forallb P o = true -> P (k, v) = true ->
  forallb P (Obj.replace k v o) = true.
Proof.
  intros Ho Hp. induction o as [|[k' v'] o IH]; [reflexivity|].
  cbn [forallb] in Ho. apply andb_true_iff in Ho. destruct Ho as [H1 H2].
  cbn [Obj.replace]. destruct (String.eqb_spec k k') as [<-|]; cbn [forallb].
  - now rewrite Hp, H2.
  - now rewrite H1, IH.
Qed.

Lemma forallb_insert_index (P : string * value -> bool) (i : Z) (k : string)
  (v : value) (o : obj) :
  forallb P o = true -> P (k, v) = true ->
  forallb P (Obj.insert_index i k v o) = true.
Proof.
  intros Ho Hp. induction o as [|[k' v'] o IH]; [cbn; now rewrite Hp|].
  pose proof Ho as Ho'.
  cbn [forallb] in Ho. apply andb_true_iff in Ho. destruct Ho as [H1 H2].
  cbn [Obj.insert_index].
  destruct (Obj.array_index k') as [j|]; [destruct (j <? i)|];
    cbn [forallb]; rewrite ?Hp, ?H1, ?H2, ?IH; auto.
Qed.

Lemma forallb_set (P : string * value -> bool) (k : string) (v : value)
  (o : obj) :
  forallb P o = true -> P (k, v) = true -> forallb P (Obj.set k v o) = true.
Proof.
  intros Ho Hp. unfold Obj.set.
  destruct (String.eqb k "__proto__"); [assumption|].
  destruct (Obj.has_own k o); [now apply forallb_replace|].
  destruct (Obj.array_index k); [now apply forallb_insert_index|].
  rewrite forallb_app, Ho. cbn. now rewrite Hp.
Qed.

Lemma forallb_keys (f : string -> bool) (o : obj) :
  forallb (fun p => f (fst p)) o = forallb f (Obj.keys o).
Proof.
  induction o as [|[k v] o IH]; [reflexivity|]. cbn. now rewrite IH.
Qed.

Lemma well_formed_keys (o o' : obj) :
  Obj.keys o = Obj.keys o' -> well_formed o = well_formed o'.
Proof.
  revert o'. induction o as [|[k v] o IH]; intros [|[k' v'] o'] H;
    try discriminate; [reflexivity|].
  cbn [Obj.keys map fst] in H. injection H as -> Hk.
  cbn [well_formed]. rewrite (IH o') by assumption. f_equal.
  rewrite (forallb_keys (precedes k') o), (forallb_keys (precedes k') o').
  unfold Obj.keys. now rewrite Hk.
Qed.

Lemma has_own_false_neq (k : string) (o : obj) :
  Obj.has_own k o = false ->
  Forall (fun p => String.eqb (fst p) k = false) o.
Proof.
  induction o as [|[k' v'] o IH]; [constructor|]. cbn [Obj.has_own].
  intros H. apply orb_false_elim in H. destruct H as [H1 H2].
  constructor; [now rewrite String.eqb_sym | auto].
Qed.

Lemma well_formed_snoc (k : string) (v : value) (o : obj) :
  well_formed o = true ->
  Forall (fun p => precedes (fst p) k = true) o ->
  well_formed (o ++ [(k, v)])%list = true.
Proof.
  intros Hwf Hall. induction Hall as [|[k' v'] o Hk _ IH]; [reflexivity|].
  cbn [well_formed app] in *. apply andb_true_iff in Hwf.
  destruct Hwf as [H1 H2]. rewrite forallb_app, H1, IH by assumption.
  cbn [forallb fst] in *. now rewrite Hk.
Qed.

Lemma well_formed_insert_index (i : Z) (k : string) (v : value) (o : obj) :
  Obj.array_index k = Some i ->
  Obj.has_own k o = false ->
  well_formed o = true ->
  well_formed (Obj.insert_index i k v o) = true.
Proof.
  intros Hi. induction o as [|[k' v'] o IH]; intros Hown Hwf; [reflexivity|].
  cbn [Obj.has_own] in Hown. apply orb_false_elim in Hown.
  destruct Hown as [Hne Hown].
  pose proof Hwf as Hwf'. cbn [well_formed] in Hwf.
  apply andb_true_iff in Hwf. destruct Hwf as [H1 H2].
  cbn [Obj.insert_index].
  assert (Hhead : forall j, Obj.array_index k' = Some j -> (j <? i) = false ->
                            i < j).
  { intros j Hj Hlt. apply Z.ltb_ge in Hlt.
    assert (i <> j); [|lia]. intros <-.
    rewrite (array_index_inj _ _ _ Hi Hj), String.eqb_refl in Hne.
    discriminate. }
  assert (Hfront : (forall j, Obj.array_index k' = Some j -> i < j) ->
                   well_formed ((k, v) :: (k', v') :: o) = true).
  { intros Hj. cbn [well_formed forallb fst]. cbn [well_formed] in Hwf'.
    rewrite Hwf', andb_true_r. apply andb_true_iff. split.
    - unfold precedes. rewrite Hi.
      destruct (Obj.array_index k') as [j|]; [|reflexivity].
      apply Z.ltb_lt. now apply Hj.
    - apply forallb_forall. intros [q vq] Hq.
      rewrite forallb_forall in H1. specialize (H1 _ Hq).
      cbn [fst] in *. unfold precedes in *. rewrite Hi.
      destruct (Obj.array_index k') as [j|];
        destruct (Obj.array_index q) as [jq|]; try reflexivity;
        try discriminate.
      apply Z.ltb_lt. apply Z.ltb_lt in H1. specialize (Hj j eq_refl). lia. }
  destruct (Obj.array_index k') as [j|] eqn:Hj.
  - destruct (j <? i) eqn:Hlt.
    + cbn [well_formed]. rewrite IH by assumption. rewrite andb_true_r.
      apply forallb_insert_index; [assumption|].
      cbn [fst]. unfold precedes. now rewrite Hj, Hi.
    + apply Hfront. intros j' [= <-]. now apply Hhead.
  - apply Hfront. discriminate.
Qed.

Lemma well_formed_set (k : string) (v : value) (o : obj) :
  well_formed o = true -> well_formed (Obj.set k v o) = true.
Proof.
  intros Hwf. unfold Obj.set.
  destruct (String.eqb k "__proto__"); [assumption|].
  destruct (Obj.has_own k o) eqn:Hown.
  - rewrite (well_formed_keys _ o); [assumption | apply keys_replace].
  - destruct (Obj.array_index k) as [i|] eqn:Hi.
    + now apply well_formed_insert_index.
    + apply well_formed_snoc; [assumption|].
      eapply Forall_impl; [|apply has_own_false_neq; eassumption].
      intros [q vq] Hq. cbn [fst] in *. unfold precedes. rewrite Hi.
      destruct (Obj.array_index q); [reflexivity | now rewrite Hq].
Qed.

(** ** Trimming *)

Lemma trimEnd_cons (c : ascii) (s : string) (k : ascii) (ks : string) :
  Str.trimEnd s = String k ks ->
  Str.trimEnd (String c s) = String c (String k ks).
Proof. intros E. cbn [Str.trimEnd]. now rewrite E. Qed.

Lemma trimEnd_idempotent (s : string) :
  Str.trimEnd (Str.trimEnd s) = Str.trimEnd s.
Proof.
  induction s as [|c s IH]; [reflexivity|].
  destruct (Str.trimEnd s) as [|k ks] eqn:E.
  - cbn [Str.trimEnd]. rewrite E.
    destruct (Str.is_ws c) eqn:Hc; [reflexivity|]. cbn. now rewrite Hc.
  - rewrite (trimEnd_cons c s k ks E). now apply trimEnd_cons.
Qed.

Lemma trimStart_head (s : string) :
  match Str.trimStart s with
  | EmptyString => True
  | String c _ => Str.is_ws c = false
  end.
Proof.
  induction s as [|c s IH]; [exact I|]. cbn [Str.trimStart].
  destruct (Str.is_ws c) eqn:Hc; [exact IH | exact Hc].
Qed.

Lemma trim_idempotent (s : string) : Str.trim (Str.trim s) = Str.trim s.
Proof.
  unfold Str.trim. pose proof (trimStart_head s) as H.
  destruct (Str.trimStart s) as [|c r]; [reflexivity|].
  assert (Hstart : Str.trimStart (Str.trimEnd (String c r))
                   = Str.trimEnd (String c r)).
  { cbn [Str.trimEnd]. destruct (Str.trimEnd r); rewrite ?H; cbn;
      now rewrite H. }
  rewrite Hstart. apply trimEnd_idempotent.
Qed.

Lemma contains_trimStart (c : ascii) (s : string) :
  Str.contains c s = false -> Str.contains c (Str.trimStart s) = false.
Proof.
  induction s as [|x s IH]; [auto|]. intros H. cbn [Str.trimStart].
  destruct (Str.is_ws x); [|assumption].
  rewrite contains_cons in H. apply orb_false_elim in H. now apply IH.
Qed.

Lemma contains_trimEnd (c : ascii) (s : string) :
  Str.contains c s = false -> Str.contains c (Str.trimEnd s) = false.
Proof.
  induction s as [|x s IH]; [auto|]. intros H.
  rewrite contains_cons in H. apply orb_false_elim in H. destruct H as [Hx Hs].
  cbn [Str.trimEnd]. specialize (IH Hs).
  destruct (Str.trimEnd s) as [|k ks].
  - destruct (Str.is_ws x); [reflexivity|].
    now rewrite contains_cons, Hx.
  - now rewrite contains_cons, Hx, IH.
Qed.

Lemma contains_trim (c : ascii) (s : string) :
  Str.contains c s = false -> Str.contains c (Str.trim s) = false.
Proof. intros H. now apply contains_trimEnd, contains_trimStart. Qed.

(** ** Property lines *)

Lemma parseIcal_property_of_line (line : string) (ev : obj) :
  parseIcal_property line ev
  = match property_of_line line with
    | Some (k, v) => Obj.set k (VStr v) ev
    | None => ev
    end.
Proof.
  unfold parseIcal_property, property_of_line.
  destruct (Str.split Str.colon line) as [|key valueParts]; [reflexivity|].
  cbv zeta.
  now destruct
    (Str.truthy key && Str.truthy (Str.trim (Str.join ":" valueParts))).
Qed.

Lemma property_of_line_no_colon (line : string) :
  Str.contains Str.colon line = false -> property_of_line line = None.
Proof.
  intros H. unfold property_of_line.
  rewrite split_without_separator by assumption.
  cbn. now rewrite andb_false_r.
Qed.

Lemma property_of_line_first_colon (key rest : string) :
  Str.contains Str.colon key = false ->
  property_of_line (key ++ ":" ++ rest)
  = if Str.truthy key && Str.truthy (Str.trim rest)
    then Some (Str.trim key, Str.trim rest)
    else None.
Proof.
  intros H. unfold property_of_line.
  change (key ++ ":" ++ rest) with (key ++ String Str.colon rest).
  rewrite split_at_first_separator by assumption.
  change ":" with (String Str.colon EmptyString).
  now rewrite join_split.
Qed.

(** X7. A line of an open block without colon stores nothing; a line with
    a colon is cut at the first one: the text before it, trimmed, is the key
    and all the text after it, trimmed, is the value, stored when the
    untrimmed key and the trimmed value are not empty. *)
Theorem parseIcal_property_cases (ev : obj) :
  (forall line : string,
      Str.contains Str.colon line = false ->
      parseIcal_property line ev = ev)
  /\ (forall key rest : string,
         Str.contains Str.colon key = false ->
         parseIcal_property (key ++ ":" ++ rest) ev
         = if Str.truthy key && Str.truthy (Str.trim rest)
           then Obj.set (Str.trim key) (VStr (Str.trim rest)) ev
           else ev).
Proof.
  split.
  - intros line H.
    now rewrite parseIcal_property_of_line, property_of_line_no_colon.
  - intros key rest H.
    rewrite parseIcal_property_of_line, property_of_line_first_colon
      by assumption.
    now destruct (Str.truthy key && Str.truthy (Str.trim rest)).
Qed.

Lemma parseIcal_property_cases_witness :
  parseIcal_property "MALFORMEDLINE" [] = []
  /\ parseIcal_property
       ("DESCRIPTION" ++ ":" ++ " Value: with multiple: colons") []
     = [("DESCRIPTION", VStr "Value: with multiple: colons")].
Proof.
  split.
  - apply (proj1 (parseIcal_property_cases []) "MALFORMEDLINE"). reflexivity.
  - apply (proj2 (parseIcal_property_cases []) "DESCRIPTION"
             " Value: with multiple: colons").
    reflexivity.
Defined.

(** ** Closed blocks *)

Lemma parseIcal_body (events : list obj) (body : list string) :
  Forall (fun l => is_begin l = false /\ is_end l = false) body ->
  forall ev : obj,
    fold_left parseIcal_step body (events, Some ev)
    = (events,
       Some (fold_left (fun ev line => parseIcal_property line ev) body ev)).
Proof.
  induction 1 as [|l body [Hb He] _ IH]; intros ev; [reflexivity|].
  cbn [fold_left]. rewrite <- IH. f_equal.
  unfold parseIcal_step, is_begin, is_end in *. now rewrite Hb, He.
Qed.

Lemma parseIcal_lines_closed (b : string) (body : list string) (e : string)
  (rest : list string) :
  is_begin b = true ->
  Forall (fun l => is_begin l = false /\ is_end l = false) body ->
  is_end e = true ->
  parseIcal_lines (b :: body ++ e :: rest)
  = block_record body :: parseIcal_lines rest.
Proof.
  intros Hb Hbody He. unfold parseIcal_lines. cbn [fold_left].
  rewrite parseIcal_step_begin by assumption. cbn [fst].
  rewrite fold_left_app, parseIcal_body by assumption. cbn [fold_left].
  fold (block_record body).
  replace (parseIcal_step ([], Some (block_record body)) e)
    with ([block_record body], @None obj).
  - now rewrite parseIcal_fold_prefix.
  - unfold parseIcal_step. pose proof (is_end_not_begin _ He) as Hn.
    unfold is_begin, is_end in *. now rewrite Hn, He.
Qed.

(** X8. A block closed by [END:VEVENT] gives one record, built from its
    body lines alone; the lines before its [BEGIN:VEVENT] and after its
    [END:VEVENT] only contribute their own records. *)
Theorem parseIcal_closed_block
  (icalData : string) (pre : list string) (b : string) (body : list string)
  (e : string) (rest : list string) :
  Str.split Str.LF icalData = (pre ++ b :: body ++ e :: rest)%list ->
  is_begin b = true ->
  Forall (fun l => is_begin l = false /\ is_end l = false) body ->
  is_end e = true ->
  parseIcal icalData
  = (parseIcal_lines pre ++ block_record body :: parseIcal_lines rest)%list.
Proof.
  intros Hsplit Hb Hbody He. unfold parseIcal. rewrite Hsplit.
  rewrite parseIcal_lines_begin by assumption.
  now rewrite parseIcal_lines_closed.
Qed.

Lemma parseIcal_closed_block_witness :
  parseIcal multipleEventsIcal
  = (parseIcal_lines []
     ++ block_record ["SUMMARY:Event 1"; "UID:event1@example.com"]
        :: parseIcal_lines
             ["BEGIN:VEVENT"; "SUMMARY:Event 2"; "UID:event2@example.com";
              "END:VEVENT"])%list.
Proof.
  apply (parseIcal_closed_block multipleEventsIcal [] "BEGIN:VEVENT"
           ["SUMMARY:Event 1"; "UID:event1@example.com"] "END:VEVENT").
  - reflexivity.
  - reflexivity.
  - repeat constructor.
  - reflexivity.
Defined.

Lemma get_block_from (K : string) (body : list string) :
  String.eqb K "__proto__" = false ->
  forall ev : obj,
    Obj.get K (fold_left (fun ev line => parseIcal_property line ev) body ev)
    = match last_value K body with
      | Some v => VStr v
      | None => Obj.get K ev
      end.
Proof.
  intros HK. induction body as [|line body IH]; intros ev; [reflexivity|].
  cbn [fold_left last_value]. rewrite IH.
  destruct (last_value K body); [reflexivity|].
  rewrite parseIcal_property_of_line.
  destruct (property_of_line line) as [[k v]|]; [|reflexivity].
  destruct (String.eqb_spec k K) as [->|Hne].
  - now apply get_set_same.
  - apply get_set_other. apply String.eqb_neq. congruence.
Qed.

(** X9. In the record of a block a key holds the value of the last line
    that names it (a later line overwrites an earlier one), and a key that
    no line names is absent. *)
Theorem block_record_last_wins (K : string) (body : list string) :
  String.eqb K "__proto__" = false ->
  Obj.get K (block_record body)
  = match last_value K body with
    | Some v => VStr v
    | None => VUndefined
    end.
Proof. intros HK. unfold block_record. now rewrite get_block_from. Qed.

Lemma block_record_last_wins_witness :
  Obj.get "SUMMARY" (block_record duplicate_key_body) = VStr "Second".
Proof.
  exact (block_record_last_wins "SUMMARY" duplicate_key_body eq_refl).
Defined.

(** ** What [parseIcal] returns *)

Lemma contains_join_split_tail (c d : ascii) (line key : string)
  (valueParts : list string) :
  Str.split c line = key :: valueParts ->
  Str.contains d line = false ->
  Str.contains d key = false
  /\ Str.contains d (Str.join (String c EmptyString) valueParts) = false.
Proof.
  intros Hsplit Hline. pose proof (join_split c line) as Hj.
  rewrite Hsplit in Hj. destruct valueParts as [|p ps].
  - cbn in Hj. subst key. split; [assumption | reflexivity].
  - rewrite join_cons_cons in Hj. rewrite <- Hj in Hline.
    rewrite !contains_app in Hline.
    apply orb_false_elim in Hline. destruct Hline as [Hk Hrest].
    apply orb_false_elim in Hrest. tauto.
Qed.

Lemma property_of_line_shape (line k v : string) :
  Str.contains Str.LF line = false ->
  property_of_line line = Some (k, v) ->
  String.eqb k "__proto__" = false ->
  parsed_property (k, VStr v) = true.
Proof.
  intros Hline Hprop Hproto. unfold property_of_line in Hprop.
  destruct (Str.split Str.colon line) as [|key valueParts] eqn:Hsplit;
    [discriminate|].
  cbv zeta in Hprop.
  destruct (Str.truthy key) eqn:Hk; [|discriminate].
  destruct (Str.truthy (Str.trim (Str.join ":" valueParts))) eqn:Hv;
    [|discriminate].
  cbn [andb] in Hprop. injection Hprop as <- <-.
  destruct (contains_join_split_tail _ Str.LF _ _ _ Hsplit Hline)
    as [HkLF HvLF].
  pose proof (split_parts_without_separator Str.colon line) as Hparts.
  rewrite Hsplit in Hparts. inversion Hparts as [|? ? Hkc _]; subst.
  cbn [parsed_property].
  rewrite !trim_idempotent, !String.eqb_refl, Hproto, Hv.
  rewrite (contains_trim _ _ Hkc), (contains_trim _ _ HkLF).
  change ":" with (String Str.colon EmptyString).
  now rewrite (contains_trim _ _ HvLF).
Qed.

Lemma parseIcal_property_shape (line : string) (ev : obj) :
  Str.contains Str.LF line = false ->
  record_shape ev = true ->
  record_shape (parseIcal_property line ev) = true.
Proof.
  intros Hline Hev. rewrite parseIcal_property_of_line.
  destruct (property_of_line line) as [[k v]|] eqn:Hp; [|assumption].
  destruct (String.eqb k "__proto__") eqn:Hproto.
  - unfold Obj.set. now rewrite Hproto.
  - unfold record_shape in *. apply andb_true_iff in Hev.
    destruct Hev as [Hwf Hall]. apply andb_true_iff. split.
    + now apply well_formed_set.
    + apply forallb_set; [assumption|].
      now apply (property_of_line_shape line).
Qed.

Lemma parseIcal_state_shape (lines : list string) :
  Forall (fun l => Str.contains Str.LF l = false) lines ->
  forall st : list obj * option obj,
    forallb record_shape (fst st) = true ->
    (forall ev, snd st = Some ev -> record_shape ev = true) ->
    forallb record_shape (fst (fold_left parseIcal_step lines st)) = true.
Proof.
  induction 1 as [|l lines Hl _ IH]; intros [events cur] Hev Hcur;
    [assumption|].
  cbn [fold_left]. apply IH; unfold parseIcal_step; cbn [fst snd] in *.
  - destruct (Str.startsWith l "BEGIN:VEVENT"); [assumption|].
    destruct (Str.startsWith l "END:VEVENT"); destruct cur as [ev|];
      cbn [fst]; try assumption.
    rewrite forallb_app, Hev. cbn. now rewrite (Hcur ev eq_refl).
  - intros ev'.
    destruct (Str.startsWith l "BEGIN:VEVENT");
      [cbn [snd]; intros [= <-]; reflexivity|].
    destruct (Str.startsWith l "END:VEVENT"); destruct cur as [ev|];
      cbn [snd]; try discriminate.
    intros [= <-]. apply parseIcal_property_shape; auto.
Qed.

Lemma parseIcal_shape (icalData : string) :
  forallb record_shape (parseIcal icalData) = true.
Proof.
  unfold parseIcal, parseIcal_lines.
  apply parseIcal_state_shape;
    [apply split_parts_without_separator | reflexivity | discriminate].
Qed.

(** X10. Every record [parseIcal] returns is the property list of an
    actual object, and each of its properties has a trimmed key without
    colon or line feed, other than [__proto__], and a value that is a
    non-empty trimmed string without line feed. *)
Theorem parseIcal_records_shape (icalData : string) :
  forallb (fun r => well_formed r && forallb parsed_property r)
    (parseIcal icalData) = true.
Proof. exact (parseIcal_shape icalData). Qed.

(** ** Serializing what was parsed *)

Lemma parseIcal_icalToString_plain (Date_toString : Date -> string)
  (records : list obj) :
  forallb plain_record records = true ->
  parseIcal (icalToString Date_toString records) = records.
Proof.
  intros Hall. destruct records as [|r records]; [reflexivity|].
  unfold parseIcal, icalToString, NL.
  rewrite split_join
    by (auto using icalToString_lines_no_LF; discriminate).
  unfold parseIcal_lines. now rewrite parseIcal_records.
Qed.

Lemma plain_of_parsed (p : string * value) :
  parsed_property p = true -> rereadable_property p = true ->
  plain_property p = true.
Proof.
  destruct p as [k [| | | |v|]]; try discriminate.
  cbn [parsed_property rereadable_property plain_property].
  unfold plain_key, plain_value. rewrite !andb_true_iff.
  intros [[[[[[H1 H2] H3] H4] H5] H6] H7] [H8 H9]. tauto.
Qed.

(** X11. Serializing the records of a text and parsing the result gives
    the same records, when none of them has an empty key or a property
    whose line would read as a marker. *)
Theorem parseIcal_icalToString_parseIcal
  (Date_toString : Date -> string) (icalData : string) :
  forallb (forallb rereadable_property) (parseIcal icalData) = true ->
  parseIcal (icalToString Date_toString (parseIcal icalData))
  = parseIcal icalData.
Proof.
  intros Hre. apply parseIcal_icalToString_plain.
  pose proof (parseIcal_shape icalData) as Hshape.
  rewrite forallb_forall in Hshape, Hre.
  apply forallb_forall. intros r Hr.
  specialize (Hshape r Hr). specialize (Hre r Hr).
  unfold record_shape in Hshape. apply andb_true_iff in Hshape.
  destruct Hshape as [Hwf Hall]. unfold plain_record. rewrite Hwf.
  rewrite forallb_forall in Hall, Hre.
  apply forallb_forall. intros p Hp.
  apply plain_of_parsed; auto.
Qed.

Lemma parseIcal_icalToString_parseIcal_witness :
  parseIcal (icalToString date_text (parseIcal multipleEventsIcal))
  = parseIcal multipleEventsIcal.
Proof.
  apply (parseIcal_icalToString_parseIcal date_text multipleEventsIcal).
  reflexivity.
Defined.

Section WrittenRecords.

Variable Date_toString : Date -> string.



End WrittenRecords.



(** ** Date-time texts *)

(** X13. A valid date with whole seconds and a UTC year of four digits is
    read back by [parseIcalDateTime] from the text [formatToIcalDateTime]
    writes for it in UTC. *)
Theorem parseIcalDateTime_inverts_formatToIcalDateTime
  (LocalTZA : Z -> bool -> Z) (t : Z) :
  Time.msFromTime t = 0 ->
  1000 <= Time.YearFromTime t <= 9999 ->
  parseIcalDateTime LocalTZA
    (Some (formatToIcalDateTime LocalTZA (mkDate (Int t)) false))
  = Some (mkDate (Int t)).
Proof. apply parseIcalDateTime_formatToIcalDateTime. Qed.

Lemma parseIcalDateTime_inverts_formatToIcalDateTime_witness :
  parseIcalDateTime utc_zone
    (Some (formatToIcalDateTime utc_zone date_2023_10h false))
  = Some date_2023_10h.
Proof.
  apply (parseIcalDateTime_inverts_formatToIcalDateTime utc_zone
           1672567200000).
  - reflexivity.
  - vm_compute. split; discriminate.
Defined.

Lemma DayFromYear_monotone (a b : Z) :
  a <= b -> Time.DayFromYear a <= Time.DayFromYear b.
Proof. unfold Time.DayFromYear. intros H. Z.div_mod_to_equations. lia. Qed.

Lemma YearFromDay_unique (d y : Z) :
  Time.DayFromYear y <= d < Time.DayFromYear (y + 1) ->
  Time.YearFromDay d = y.
Proof.
  intros H. pose proof (YearFromDay_spec d) as Hs.
  destruct (Z.lt_trichotomy (Time.YearFromDay d) y) as [Hlt|[Heq|Hgt]];
    [|assumption|].
  - pose proof (DayFromYear_monotone (Time.YearFromDay d + 1) y). lia.
  - pose proof (DayFromYear_monotone (y + 1) (Time.YearFromDay d)). lia.
Qed.

Lemma month_cases (m : Z) :
  0 <= m <= 11 ->
  m = 0 \/ m = 1 \/ m = 2 \/ m = 3 \/ m = 4 \/ m = 5 \/ m = 6 \/ m = 7
  \/ m = 8 \/ m = 9 \/ m = 10 \/ m = 11.
Proof. lia. Qed.

Lemma day_of_fields_within_year (leap m day : Z) :
  0 <= m <= 11 ->
  1 <= day <= days_in_month leap m ->
  leap = 0 \/ leap = 1 ->
  0 <= Time.DaysBeforeMonth leap m + day - 1 < 365 + leap.
Proof.
  intros Hm Hd Hl. apply month_cases in Hm.
  repeat (destruct Hm as [->|Hm]); try subst m;
    cbn [Time.DaysBeforeMonth days_in_month] in *; lia.
Qed.

Lemma month_and_date_of_day (leap m day : Z) :
  0 <= m <= 11 ->
  1 <= day <= days_in_month leap m ->
  leap = 0 \/ leap = 1 ->
  forall t : Z,
    Time.InLeapYear t = leap ->
    Time.DayWithinYear t = Time.DaysBeforeMonth leap m + day - 1 ->
    Time.MonthFromTime t = m /\ Time.DateFromTime t = day.
Proof.
  intros Hm Hd Hl t Hleap Hday.
  unfold Time.DateFromTime, Time.MonthFromTime. rewrite Hleap, Hday.
  apply month_cases in Hm.
  repeat (destruct Hm as [->|Hm]); try subst m;
    cbn [Time.DaysBeforeMonth days_in_month] in *;
    repeat match goal with
           | |- context [?a <? ?b] => destruct (Z.ltb_spec a b); try lia
           end;
    split; lia.
Qed.

Lemma time_of_fields (D h mi s : Z) :
  0 <= h <= 23 -> 0 <= mi <= 59 -> 0 <= s <= 59 ->
  let t := Time.MakeDate D (Time.MakeTime h mi s 0) in
  Time.Day t = D /\ Time.HourFromTime t = h /\ Time.MinFromTime t = mi
  /\ Time.SecFromTime t = s.
Proof.
  intros Hh Hmi Hs. cbv zeta.
  unfold Time.MakeDate, Time.MakeTime, Time.Day, Time.HourFromTime,
    Time.MinFromTime, Time.SecFromTime, Time.msPerDay, Time.msPerHour,
    Time.msPerMinute, Time.msPerSecond.
  repeat split; Z.div_mod_to_equations; lia.
Qed.

Lemma days_in_month_bound (leap m : Z) :
  0 <= m <= 11 -> leap = 0 \/ leap = 1 -> days_in_month leap m <= 31.
Proof.
  intros Hm Hl. apply month_cases in Hm.
  repeat (destruct Hm as [->|Hm]); try subst m; cbn [days_in_month]; lia.
Qed.

Lemma fields_time (year month day hours minutes seconds : Z) :
  valid_fields year month day hours minutes seconds = true ->
  let t := Time.MakeDate (Time.MakeDay year (month - 1) day)
             (Time.MakeTime hours minutes seconds 0) in
  Time.TimeClip t = Int t
  /\ Time.YearFromTime t = year
  /\ Time.MonthFromTime t = month - 1
  /\ Time.DateFromTime t = day
  /\ Time.HourFromTime t = hours
  /\ Time.MinFromTime t = minutes
  /\ Time.SecFromTime t = seconds.
Proof.
  unfold valid_fields. rewrite !andb_true_iff, !Z.leb_le.
  intros [[[[[[[[[[[Hy1 Hy2] Hm1] Hm2] Hd1] Hd2] Hh1] Hh2] Hi1] Hi2] Hs1] Hs2].
  cbv zeta.
  set (leap := if Time.DaysInYear year =? 366 then 1 else 0) in *.
  assert (Hleap : leap = 0 \/ leap = 1)
    by (unfold leap; destruct (Time.DaysInYear year =? 366); auto).
  assert (HDiY : Time.DaysInYear year = 365 + leap).
  { unfold leap. destruct (DaysInYear_cases year) as [E|E]; rewrite E;
      reflexivity. }
  assert (Hday : Time.MakeDay year (month - 1) day
                 = Time.DayFromYear year
                   + (Time.DaysBeforeMonth leap (month - 1) + day - 1)).
  { unfold Time.MakeDay.
    rewrite Z.div_small, Z.mod_small, Z.add_0_r by lia.
    fold leap. lia. }
  pose proof (day_of_fields_within_year leap (month - 1) day
                ltac:(lia) ltac:(lia) Hleap) as Hwithin.
  destruct (time_of_fields (Time.MakeDay year (month - 1) day)
              hours minutes seconds ltac:(lia) ltac:(lia) ltac:(lia))
    as (HD & HH & HM & HS).
  set (t := Time.MakeDate (Time.MakeDay year (month - 1) day)
              (Time.MakeTime hours minutes seconds 0)) in *.
  assert (HY : Time.YearFromTime t = year).
  { unfold Time.YearFromTime. rewrite HD, Hday.
    apply YearFromDay_unique. rewrite DayFromYear_succ. lia. }
  assert (HL : Time.InLeapYear t = leap)
    by (unfold Time.InLeapYear; now rewrite HY).
  assert (HW : Time.DayWithinYear t
               = Time.DaysBeforeMonth leap (month - 1) + day - 1)
    by (unfold Time.DayWithinYear; rewrite HY, HD, Hday; lia).
  destruct (month_and_date_of_day leap (month - 1) day
              ltac:(lia) ltac:(lia) Hleap t HL HW) as [HMo HDa].
  repeat split; try assumption.
  unfold Time.TimeClip.
  destruct (Z.ltb_spec 8640000000000000 (Z.abs t)) as [Hbig|]; [|reflexivity].
  exfalso.
  assert (Time.DayFromYear 1000 <= Time.DayFromYear year)
    by (now apply DayFromYear_monotone).
  assert (Time.DayFromYear year <= Time.DayFromYear 9999)
    by (now apply DayFromYear_monotone).
  assert (Ht : t = Time.Day t * 86400000 + (t - Time.Day t * 86400000))
    by lia.
  assert (0 <= t - Time.Day t * 86400000 < 86400000).
  { unfold Time.Day, Time.msPerDay. Z.div_mod_to_equations. lia. }
  rewrite HD, Hday in *.
  change (Time.DayFromYear 1000) with (-354285) in *.
  change (Time.DayFromYear 9999) with 2932532 in *.
  lia.
Qed.

(** X14. A text [YYYYMMDDTHHMMSSZ] that names a calendar date and a time of
    day in a year from 1000 to 9999 is read by [parseIcalDateTime] as a
    date that [formatToIcalDateTime] writes, in UTC, as the same text. *)
Theorem formatToIcalDateTime_inverts_parseIcalDateTime
  (LocalTZA : Z -> bool -> Z) (year month day hours minutes seconds : Z) :
  valid_fields year month day hours minutes seconds = true ->
  exists date : Date,
    parseIcalDateTime LocalTZA
      (Some (utc_text year month day hours minutes seconds)) = Some date
    /\ formatToIcalDateTime LocalTZA date false
       = utc_text year month day hours minutes seconds.
Proof.
  intros Hvalid. destruct (fields_time _ _ _ _ _ _ Hvalid)
    as (Hclip & HY & HMo & HDa & HH & HMi & HS).
  unfold valid_fields in Hvalid. rewrite !andb_true_iff, !Z.leb_le in Hvalid.
  destruct Hvalid
    as [[[[[[[[[[[Hy1 Hy2] Hm1] Hm2] Hd1] Hd2] Hh1] Hh2] Hi1] Hi2] Hs1] Hs2].
  assert (Hd3 : day <= 31).
  { pose proof (days_in_month_bound
                  (if Time.DaysInYear year =? 366 then 1 else 0) (month - 1)
                  ltac:(lia)
                  ltac:(destruct (Time.DaysInYear year =? 366); auto)).
    lia. }
  destruct (year_reads_back year ltac:(lia)) as [Ly Py].
  destruct (two_digits_read_back month ltac:(lia)) as [Lm Pm].
  destruct (two_digits_read_back day ltac:(lia)) as [Ld Pd].
  destruct (two_digits_read_back hours ltac:(lia)) as [Lh Ph].
  destruct (two_digits_read_back minutes ltac:(lia)) as [Li Pi].
  destruct (two_digits_read_back seconds ltac:(lia)) as [Ls Ps].
  eexists. split.
  - unfold utc_text. rewrite parseIcalDateTime_of_parts by assumption.
    rewrite Py, Pm, Pd, Ph, Pi, Ps.
    unfold Date_UTC, Time.UTC_of_fields, Time.date_of_fields, Num.sub.
    replace ((0 <=? year) && (year <=? 99)) with false
      by (symmetry; apply andb_false_iff; right; lia).
    rewrite Hclip. reflexivity.
  - unfold formatToIcalDateTime, getUTCFullYear, getUTCMonth, getUTCDate,
      getUTCHours, getUTCMinutes, getUTCSeconds, Num.add, utc_text.
    rewrite HY, HMo, HDa, HH, HMi, HS.
    now replace (month - 1 + 1) with month by lia.
Qed.

Lemma formatToIcalDateTime_inverts_parseIcalDateTime_witness :
  exists date : Date,
    parseIcalDateTime utc_zone (Some (utc_text 2023 1 1 10 0 0)) = Some date
    /\ formatToIcalDateTime utc_zone date false = utc_text 2023 1 1 10 0 0.
Proof.
  apply (formatToIcalDateTime_inverts_parseIcalDateTime utc_zone
           2023 1 1 10 0 0).
  reflexivity.
Defined.

(** ** The mapping functions *)



Lemma parsed_value (r : obj) (k : string) :
  forallb parsed_property r = true ->
  Obj.has_own k r = true ->
  exists s, Obj.get k r = VStr s /\ Str.truthy s = true.
Proof.
  induction r as [|[k' v'] r IH]; [discriminate|].
  cbn [forallb Obj.has_own Obj.get]. intros H Hown.
  apply andb_true_iff in H. destruct H as [Hp Hrest].
  destruct (String.eqb k k'); [|now apply IH].
  destruct v' as [| | | |s|]; try discriminate. exists s. split; [reflexivity|].
  cbn [parsed_property] in Hp. rewrite !andb_true_iff in Hp. tauto.
Qed.

Lemma parsed_invalid (r : obj) :
  forallb parsed_property r = true ->
  invalid_ical_object r = lacks_required r.
Proof.
  intros Hp.
  assert (Hstr : forall k,
             Val.is_string (Obj.get k r) = Obj.has_own k r
             /\ (Val.is_defined (Obj.get k r)
                 && negb (Val.is_string (Obj.get k r)) = false)).
  { intros k. destruct (Obj.has_own k r) eqn:Hown.
    - destruct (parsed_value r k Hp Hown) as (s & -> & _). now split.
    - rewrite get_absent by assumption. now split. }
  unfold invalid_ical_object, lacks_required.
  destruct (Hstr "UID") as [-> _]. destruct (Hstr "SUMMARY") as [-> _].
  destruct (Hstr "DTSTART") as [-> _]. destruct (Hstr "DTEND") as [-> _].
  destruct (Hstr "LOCATION") as [_ ->]. destruct (Hstr "DESCRIPTION") as [_ ->].
  destruct (Obj.has_own "UID" r), (Obj.has_own "SUMMARY" r),
    (Obj.has_own "DTSTART" r), (Obj.has_own "DTEND" r); reflexivity.
Qed.

Lemma parseIcal_In_shape (icalData : string) (r : obj) :
  In r (parseIcal icalData) -> forallb parsed_property r = true.
Proof.
  intros Hin. pose proof (parseIcal_shape icalData) as H.
  rewrite forallb_forall in H. specialize (H r Hin).
  unfold record_shape in H. now apply andb_true_iff in H.
Qed.

Lemma parseIcalDateTime_of_truthy (LocalTZA : Z -> bool -> Z) (s : string) :
  Str.truthy s = true ->
  exists d, parseIcalDateTime LocalTZA (Some s) = Some d.
Proof.
  intros Hs. unfold parseIcalDateTime. rewrite Hs. cbn [negb].
  destruct (Nat.ltb 8 (String.length s)
            && match String.get 8 s with
               | Some c => Ascii.eqb c "T"%char
               | None => false
               end);
    destruct (Str.endsWith s "Z"); eexists; reflexivity.
Qed.

(** X16. On a record returned by [parseIcal], [mapIcalObjectToEvent]
    raises its error exactly when one of [UID], [SUMMARY], [DTSTART],
    [DTEND] is not among its properties; otherwise it returns an Event
    whose [start] and [end] are [Date] objects, unless the record has
    properties of these names. *)
Theorem mapIcalObjectToEvent_of_parsed_record
  (LocalTZA : Z -> bool -> Z) (icalData : string) (r : obj) :
  In r (parseIcal icalData) ->
  (lacks_required r = true ->
   mapIcalObjectToEvent LocalTZA r = Throw (Error "Invalid iCal object"))
  /\ (lacks_required r = false ->
      exists event : obj,
        mapIcalObjectToEvent LocalTZA r = Return event
        /\ (Obj.has_own "start" r = false ->
            is_Date (Obj.get "start" event) = true)
        /\ (Obj.has_own "end" r = false ->
            is_Date (Obj.get "end" event) = true)).
Proof.
  intros Hin. pose proof (parseIcal_In_shape _ _ Hin) as Hp.
  pose proof (parsed_invalid r Hp) as Hinv. split; intros Hreq.
  - unfold mapIcalObjectToEvent. now rewrite Hinv, Hreq.
  - rewrite Hreq in Hinv. rewrite mapIcalObjectToEvent_valid by assumption.
    eexists. split; [reflexivity|].
    unfold lacks_required in Hreq. apply negb_false_iff in Hreq.
    rewrite !andb_true_iff in Hreq. destruct Hreq as [[[_ _] Hs] He].
    destruct (parsed_value r "DTSTART" Hp Hs) as (ss & Gs & Ts).
    destruct (parsed_value r "DTEND" Hp He) as (se & Ge & Te).
    destruct (parseIcalDateTime_of_truthy LocalTZA ss Ts) as [ds Hds].
    destruct (parseIcalDateTime_of_truthy LocalTZA se Te) as [de Hde].
    destruct (named_fields_get LocalTZA r) as (_ & _ & Fs & Fe & _).
    rewrite Gs in Fs. rewrite Ge in Fe. cbn [as_string] in Fs, Fe.
    rewrite Hds in Fs. rewrite Hde in Fe. cbn [date_value] in Fs, Fe.
    unfold event_of.
    split; intros Hown; rewrite get_copy_untouched;
      rewrite ?Fs, ?Fe; try reflexivity;
      intros k Hk _; apply String.eqb_neq; intros <-;
      apply has_own_keys in Hk; congruence.
Qed.

Lemma mapIcalObjectToEvent_of_parsed_record_witness :
  exists event : obj,
    mapIcalObjectToEvent utc_zone valid_event_record = Return event
    /\ (Obj.has_own "start" valid_event_record = false ->
        is_Date (Obj.get "start" event) = true)
    /\ (Obj.has_own "end" valid_event_record = false ->
        is_Date (Obj.get "end" event) = true).
Proof.
  apply (proj2 (mapIcalObjectToEvent_of_parsed_record utc_zone
                  valid_event_text valid_event_record
                  (or_introl eq_refl))).
  reflexivity.
Defined.

(** X17. For an Event whose dates are [Date] objects and whose custom
    field names clash neither with each other nor with a reserved name once
    upper-cased, [mapEventToIcalObject] returns a record that holds [UID]
    only for a truthy [id], the [summary] as [SUMMARY], the UTC texts of
    the dates, [LOCATION] and [DESCRIPTION] only when truthy, and every
    custom field under its upper-cased name. *)
Theorem mapEventToIcalObject_record
  (LocalTZA : Z -> bool -> Z) (toUpperCase : string -> string)
  (event : obj) :
  mappable_event toUpperCase event = true ->
  exists (icalObj : obj) (ds de : Date),
    mapEventToIcalObject LocalTZA toUpperCase event = Return icalObj
    /\ Obj.get "start" event = VDate ds
    /\ Obj.get "end" event = VDate de
    /\ Obj.get "UID" icalObj
       = (if Val.truthy (Obj.get "id" event) then Obj.get "id" event
          else VUndefined)
    /\ Obj.get "SUMMARY" icalObj = Obj.get "summary" event
    /\ Obj.get "DTSTART" icalObj
       = VStr (formatToIcalDateTime LocalTZA ds false)
    /\ Obj.get "DTEND" icalObj = VStr (formatToIcalDateTime LocalTZA de false)
    /\ Obj.get "LOCATION" icalObj
       = (if Val.truthy (Obj.get "location" event)
          then Obj.get "location" event else VUndefined)
    /\ Obj.get "DESCRIPTION" icalObj
       = (if Val.truthy (Obj.get "description" event)
          then Obj.get "description" event else VUndefined)
    /\ (forall key : string,
           In key (custom_keys event) ->
           Obj.get (toUpperCase key) icalObj = Obj.get key event).
Proof.
  unfold mappable_event. rewrite !andb_true_iff.
  intros [[[Hs He] Hres] Hdis].
  destruct (Obj.get "start" event) as [| | | | |ds] eqn:Es; try discriminate.
  destruct (Obj.get "end" event) as [| | | | |de] eqn:Ee; try discriminate.
  exists (record_of toUpperCase event
            (formatToIcalDateTime LocalTZA ds false)
            (formatToIcalDateTime LocalTZA de false)), ds, de.
  split; [now apply mapEventToIcalObject_typed|].
  split; [reflexivity|]. split; [reflexivity|].
  generalize (formatToIcalDateTime LocalTZA ds false)
    (formatToIcalDateTime LocalTZA de false). intros dtstart dtend.
  destruct (named_properties_get event dtstart dtend)
    as (Guid & Gsum & Gstart & Gend & Gloc & Gdesc).
  rewrite !(record_named toUpperCase event Hres dtstart dtend)
    by (cbn; tauto).
  repeat split; try assumption.
  intros key Hkey.
  now destruct (record_custom toUpperCase event Hres Hdis dtstart dtend
                  key Hkey).
Qed.

Lemma mapEventToIcalObject_record_witness :
  exists (icalObj : obj) (ds de : Date),
    mapEventToIcalObject utc_zone upper_ascii full_event = Return icalObj
    /\ Obj.get "start" full_event = VDate ds
    /\ Obj.get "end" full_event = VDate de
    /\ Obj.get "UID" icalObj
       = (if Val.truthy (Obj.get "id" full_event)
          then Obj.get "id" full_event else VUndefined)
    /\ Obj.get "SUMMARY" icalObj = Obj.get "summary" full_event
    /\ Obj.get "DTSTART" icalObj
       = VStr (formatToIcalDateTime utc_zone ds false)
    /\ Obj.get "DTEND" icalObj = VStr (formatToIcalDateTime utc_zone de false)
    /\ Obj.get "LOCATION" icalObj
       = (if Val.truthy (Obj.get "location" full_event)
          then Obj.get "location" full_event else VUndefined)
    /\ Obj.get "DESCRIPTION" icalObj
       = (if Val.truthy (Obj.get "description" full_event)
          then Obj.get "description" full_event else VUndefined)
    /\ (forall key : string,
           In key (custom_keys full_event) ->
           Obj.get (upper_ascii key) icalObj = Obj.get key full_event).
Proof.
  apply (mapEventToIcalObject_record utc_zone upper_ascii full_event).
  reflexivity.
Defined.

(** ** The client *)

Lemma endsWith_slash (s : string) : Str.endsWith (s ++ "/") "/" = true.
Proof.
  unfold Str.endsWith.
  assert (Hlen : String.length (s ++ "/") = S (String.length s)).
  { induction s as [|c s IH]; cbn; [reflexivity | now rewrite IH]. }
  rewrite Hlen. cbn [String.length Nat.leb Nat.sub andb].
  rewrite Nat.sub_0_r. clear Hlen.
  induction s as [|c s IH]; [reflexivity | exact IH].
Qed.

(** X18. The base URL a [CalDAVClient] keeps ends with a slash, and a URL
    that already ends with one is kept as it is. *)
Theorem CalDAVClient_baseUrl_ends_with_slash (url : string) :
  Str.endsWith (CalDAVClient_baseUrl url) "/" = true
  /\ CalDAVClient_baseUrl (CalDAVClient_baseUrl url)
     = CalDAVClient_baseUrl url.
Proof.
  assert (H : Str.endsWith (CalDAVClient_baseUrl url) "/" = true).
  { unfold CalDAVClient_baseUrl.
    destruct (Str.endsWith url "/") eqn:E; [exact E | apply endsWith_slash]. }
  split; [exact H|]. unfold CalDAVClient_baseUrl at 1. now rewrite H.
Qed.

Lemma join_app (xs ys : list string) :
  xs <> [] -> ys <> [] ->
  Str.join NL (xs ++ ys) = Str.join NL xs ++ NL ++ Str.join NL ys.
Proof.
  intros Hx Hy. induction xs as [|x xs IH]; [contradiction|].
  destruct xs as [|x' xs].
  - cbn [app]. now rewrite join_cons_nonempty.
  - cbn [app] in *. rewrite join_cons_cons.
    rewrite (join_cons_cons NL x x' xs).
    rewrite IH by discriminate. now rewrite !string_app_assoc.
Qed.

Lemma icalData_of_lines
  (Date_toString : Date -> string) (icalObject : obj) :
  icalData_of Date_toString icalObject
  = Str.join NL
      (["BEGIN:VCALENDAR"; "VERSION:2.0";
        "PRODID:-//dav-js//CalDAVClient 1.0//EN"]
         ++ icalToString_lines Date_toString [icalObject]
         ++ ["END:VCALENDAR"]).
Proof.
  unfold icalData_of, icalToString.
  rewrite join_app by (try discriminate; now destruct (icalToString_lines _ _)).
  rewrite join_app
    by (try discriminate; apply icalToString_lines_not_nil; discriminate).
  cbn [Str.join String.concat]. now rewrite !string_app_assoc.
Qed.

(** X19. The calendar text [addEvent] and [updateEvent] send for a plain
    record is read back by [parseIcal] as that one record: the
    [VCALENDAR] lines around the block add nothing. *)
Theorem parseIcal_of_sent_body
  (Date_toString : Date -> string) (icalObject : obj) :
  plain_record icalObject = true ->
  parseIcal (icalData_of Date_toString icalObject) = [icalObject].
Proof.
  intros Hplain.
  assert (Hall : forallb plain_record [icalObject] = true)
    by (cbn; now rewrite Hplain).
  unfold parseIcal. rewrite icalData_of_lines. unfold NL at 1.
  rewrite split_join.
  - unfold parseIcal_lines. rewrite !fold_left_app.
    change (fold_left parseIcal_step
              ["BEGIN:VCALENDAR"; "VERSION:2.0";
               "PRODID:-//dav-js//CalDAVClient 1.0//EN"] ([], None))
      with (@nil obj, @None obj).
    rewrite parseIcal_records by assumption. reflexivity.
  - discriminate.
  - apply Forall_app. split;
      [repeat (apply Forall_cons; [reflexivity|]); apply Forall_nil|].
    apply Forall_app. split;
      [|apply Forall_cons; [reflexivity | apply Forall_nil]].
    now apply icalToString_lines_no_LF.
Qed.

Lemma parseIcal_of_sent_body_witness :
  parseIcal (icalData_of date_text singleEventObject) = [singleEventObject].
Proof.
  apply (parseIcal_of_sent_body date_text singleEventObject). reflexivity.
Defined.

Lemma startsWith_empty (s : string) : Str.startsWith s EmptyString = true.
Proof. now destruct s. Qed.

Lemma startsWith_of_empty (p : string) :
  Str.startsWith EmptyString p = true -> p = EmptyString.
Proof. now destruct p. Qed.

Lemma startsWith_split_head (c : ascii) (s : string) :
  forall (p hd : string) (tl : list string),
    Str.split c s = hd :: tl ->
    Str.startsWith hd p = true -> Str.startsWith s p = true.
Proof.
  induction s as [|x s IH]; intros p hd tl Hsplit Hp.
  - injection Hsplit as <- _. exact Hp.
  - cbn [Str.split] in Hsplit. destruct (Ascii.eqb x c).
    + injection Hsplit as <- _. apply startsWith_of_empty in Hp. subst p.
      apply startsWith_empty.
    + destruct (Str.split c s) as [|h t] eqn:E;
        [now apply split_not_nil in E|].
      injection Hsplit as <- _. destruct p as [|a p]; [reflexivity|].
      cbn [Str.startsWith] in *. apply andb_true_iff in Hp.
      destruct Hp as [Ha Hp]. rewrite Ha. cbn [andb].
      now apply (IH p h t).
Qed.

Lemma includes_of_line (c : ascii) (p : string) (s : string) :
  forall l : string,
    In l (Str.split c s) -> Str.startsWith l p = true ->
    Str_includes s p = true.
Proof.
  induction s as [|x s IH]; intros l Hin Hp.
  - destruct Hin as [<-|[]]. cbn [Str_includes]. now rewrite Hp.
  - cbn [Str_includes]. apply orb_true_iff.
    destruct (Str.split c (String x s)) as [|hd tl] eqn:E;
      [contradiction|].
    destruct Hin as [<-|Hin].
    + left. now apply (startsWith_split_head c _ p hd tl).
    + right. cbn [Str.split] in E. destruct (Ascii.eqb x c).
      * injection E as _ <-. now apply (IH l).
      * destruct (Str.split c s) as [|h t] eqn:E';
          [now apply split_not_nil in E'|].
        injection E as _ <-. apply (IH l); [now right | assumption].
Qed.

Lemma parseIcal_without_marker (calData : string) :
  Str_includes calData "BEGIN:VEVENT" = false -> parseIcal calData = [].
Proof.
  intros H. unfold parseIcal, parseIcal_lines.
  rewrite parseIcal_no_begin; [reflexivity|].
  apply Forall_forall. intros l Hl.
  destruct (is_begin l) eqn:Hb; [|reflexivity].
  rewrite (includes_of_line Str.LF "BEGIN:VEVENT" calData l Hl Hb) in H.
  discriminate.
Qed.

Lemma getEvents_collect_all (LocalTZA : Z -> bool -> Z)
  (calDatas : list string) :
  forall events : list obj,
    getEvents_collect LocalTZA events calDatas
    = collect_all LocalTZA events calDatas.
Proof.
  induction calDatas as [|calData rest IH]; intros events; [reflexivity|].
  cbn [getEvents_collect collect_all].
  destruct (Str_includes calData "BEGIN:VEVENT") eqn:E.
  - destruct (push_events LocalTZA events (parseIcal calData));
      [apply IH | reflexivity].
  - rewrite parseIcal_without_marker by assumption. cbn [push_events].
    apply IH.
Qed.

(** X20. The test [calData.includes("BEGIN:VEVENT")] in the loop of
    [getEvents] changes nothing: a text without that marker holds no
    record, so the loop gives the same result without the test. *)
Theorem getEvents_marker_test_redundant (LocalTZA : Z -> bool -> Z)
  (events : list obj) (calDatas : list string) :
  getEvents_collect LocalTZA events calDatas
  = collect_all LocalTZA events calDatas.
Proof. apply getEvents_collect_all. Qed.

Lemma push_events_of_parsed (LocalTZA : Z -> bool -> Z)
  (records : list obj) :
  forall events : list obj,
    Forall (fun r => forallb parsed_property r = true) records ->
    push_events LocalTZA events records
    = if existsb lacks_required records
      then Throw (Error "Invalid iCal object")
      else Return (events ++ map (event_of LocalTZA) records)%list.
Proof.
  induction records as [|r records IH]; intros events Hall.
  - cbn. now rewrite app_nil_r.
  - inversion Hall as [|r' records' Hr Hrest]; subst.
    cbn [push_events existsb map]. unfold mapIcalObjectToEvent.
    rewrite (parsed_invalid r Hr).
    destruct (lacks_required r); [reflexivity|]. cbn [orb].
    rewrite IH by assumption.
    destruct (existsb lacks_required records); [reflexivity|].
    now rewrite <- app_assoc.
Qed.

Lemma collect_all_of_parsed (LocalTZA : Z -> bool -> Z)
  (calDatas : list string) :
  forall events : list obj,
    collect_all LocalTZA events calDatas
    = if existsb lacks_required (flat_map parseIcal calDatas)
      then Throw (Error "Invalid iCal object")
      else Return
             (events
                ++ map (event_of LocalTZA) (flat_map parseIcal calDatas))%list.
Proof.
  induction calDatas as [|calData rest IH]; intros events.
  - cbn. now rewrite app_nil_r.
  - cbn [collect_all flat_map]. rewrite existsb_app, map_app.
    rewrite push_events_of_parsed
      by (apply Forall_forall; intros r Hr;
          now apply (parseIcal_In_shape calData)).
    destruct (existsb lacks_required (parseIcal calData)); [reflexivity|].
    cbn [orb]. rewrite IH.
    destruct (existsb lacks_required (flat_map parseIcal rest));
      [reflexivity|].
    now rewrite <- app_assoc.
Qed.

(** X21. The loop of [getEvents] is all or nothing. When one record of
    one [calendar-data] text lacks [UID], [SUMMARY], [DTSTART] or [DTEND],
    the call raises [Invalid iCal object] and gives no event at all;
    otherwise it gives one Event for each record, in the order of the
    texts and of the blocks in each text. *)
Theorem getEvents_all_or_nothing (LocalTZA : Z -> bool -> Z)
  (events : list obj) (calDatas : list string) :
  getEvents_collect LocalTZA events calDatas
  = if existsb lacks_required (flat_map parseIcal calDatas)
    then Throw (Error "Invalid iCal object")
    else Return
           (events
              ++ map (event_of LocalTZA) (flat_map parseIcal calDatas))%list.
Proof. rewrite getEvents_collect_all. apply collect_all_of_parsed. Qed.

(** ** Local time *)

Lemma two_digits_no_Z (n : Z) :
  0 <= n <= 99 ->
  Str.endsWith (Str.padStart 2 "0" (Num.toString (Int n))) "Z" = false.
Proof.
  intros Hn. apply negb_true_iff.
  apply (forallb_range
           (fun n =>
              negb (Str.endsWith
                      (Str.padStart 2 "0" (Num.toString (Int n))) "Z"))
           0 (Z.to_nat 100)); [vm_compute; reflexivity | lia].
Qed.

Section LocalText.

Variable LocalTZA : Z -> bool -> Z.

Lemma parseIcalDateTime_of_local_parts (Y Mo D H Mi S : string) :
  String.length Y = 4%nat -> String.length Mo = 2%nat ->
  String.length D = 2%nat -> String.length H = 2%nat ->
  String.length Mi = 2%nat -> String.length S = 2%nat ->
  Str.endsWith S "Z" = false ->
  parseIcalDateTime LocalTZA
    (Some ((Y ++ Mo ++ D) ++ "T" ++ H ++ Mi ++ S))
  = Some (Date_local LocalTZA (Num.parseInt Y)
            (Num.sub (Num.parseInt Mo) (Int 1))
            (Num.parseInt D) (Num.parseInt H) (Num.parseInt Mi)
            (Num.parseInt S)).
Proof.
  intros HY HMo HD HH HMi HS HZ.
  destruct (length_4_inv Y HY) as (y1 & y2 & y3 & y4 & ->).
  destruct (length_2_inv Mo HMo) as (m1 & m2 & ->).
  destruct (length_2_inv D HD) as (d1 & d2 & ->).
  destruct (length_2_inv H HH) as (h1 & h2 & ->).
  destruct (length_2_inv Mi HMi) as (i1 & i2 & ->).
  destruct (length_2_inv S HS) as (s1 & s2 & ->).
  assert (HZ' : Str.endsWith
                  ((String y1 (String y2 (String y3 (String y4 EmptyString)))
                    ++ String m1 (String m2 EmptyString)
                    ++ String d1 (String d2 EmptyString))
                   ++ "T" ++ String h1 (String h2 EmptyString)
                   ++ String i1 (String i2 EmptyString)
                   ++ String s1 (String s2 EmptyString)) "Z" = false)
    by exact HZ.
  unfold parseIcalDateTime. rewrite HZ'. reflexivity.
Qed.

End LocalText.

(** X22. In a zone with a fixed offset from UTC, a valid date whose local
    time has whole seconds and a year of four digits is read back by
    [parseIcalDateTime] from the local text (without [Z]) that
    [formatToIcalDateTime] writes for it. *)
Theorem parseIcalDateTime_inverts_local_format
  (LocalTZA : Z -> bool -> Z) (offset t : Z) :
  (forall (t' : Z) (isUTC : bool), LocalTZA t' isUTC = offset) ->
  Z.abs t <= 8640000000000000 ->
  Time.msFromTime (t + offset) = 0 ->
  1000 <= Time.YearFromTime (t + offset) <= 9999 ->
  parseIcalDateTime LocalTZA
    (Some (formatToIcalDateTime LocalTZA (mkDate (Int t)) true))
  = Some (mkDate (Int t)).
Proof.
  intros Hzone Hvalid Hms Hy.
  unfold formatToIcalDateTime, getFullYear, getMonth, getDate, getHours,
    getMinutes, getSeconds, Num.add, LocalTime.
  rewrite Hzone. set (u := t + offset) in *.
  destruct (month_and_date u) as (Hm & Hd & _).
  destruct (time_fields_range u) as (Hh & Hmi & Hs).
  destruct (year_reads_back _ Hy) as [Ly Py].
  destruct (two_digits_read_back (Time.MonthFromTime u + 1)) as [Lm Pm]; [lia|].
  destruct (two_digits_read_back (Time.DateFromTime u)) as [Ld Pd]; [lia|].
  destruct (two_digits_read_back (Time.HourFromTime u)) as [Lh Ph]; [lia|].
  destruct (two_digits_read_back (Time.MinFromTime u)) as [Li Pi]; [lia|].
  destruct (two_digits_read_back (Time.SecFromTime u)) as [Ls Ps]; [lia|].
  rewrite parseIcalDateTime_of_local_parts
    by (try assumption; apply two_digits_no_Z; lia).
  rewrite Py, Pm, Pd, Ph, Pi, Ps. f_equal.
  unfold Date_local, Time.date_of_fields, Num.sub.
  replace (Time.MonthFromTime u + 1 - 1) with (Time.MonthFromTime u) by lia.
  replace ((0 <=? Time.YearFromTime u) && (Time.YearFromTime u <=? 99))
    with false by (symmetry; apply andb_false_iff; right; lia).
  rewrite MakeDay_of_time, MakeTime_of_time by assumption.
  unfold Time.MakeDate, Time.Day, Time.TimeWithinDay.
  replace (u / Time.msPerDay * Time.msPerDay + u mod Time.msPerDay) with u
    by (pose proof (Z.div_mod u Time.msPerDay); unfold Time.msPerDay in *; lia).
  rewrite Hzone. replace (u - offset) with t by (unfold u; lia).
  unfold Time.TimeClip. f_equal.
  destruct (Z.ltb_spec 8640000000000000 (Z.abs t)); [lia | reflexivity].
Qed.

Lemma parseIcalDateTime_inverts_local_format_witness :
  parseIcalDateTime (fixed_zone 3600000)
    (Some (formatToIcalDateTime (fixed_zone 3600000) date_2023_10h true))
  = Some date_2023_10h.
Proof.
  apply (parseIcalDateTime_inverts_local_format (fixed_zone 3600000)
           3600000 1672567200000).
  - reflexivity.
  - vm_compute. discriminate.
  - reflexivity.
  - vm_compute. split; discriminate.
Defined.
